(** * Resource-manager description routines of the tree indexes

    A shallow embedding of [src/backend/access/rmgrdesc/nbtdesc.c] and
    [src/backend/access/rmgrdesc/gistdesc.c]: the routines that render a
    write-ahead-log record of the ordered tree (nbtree) or of the
    hierarchical tree (GiST) as text, and the routines that name a record
    kind.  The replay side, which the sources at hand do not contain, is
    modelled from the specification in module [Replay].  Module
    [aggregatecmds] embeds [DefineAggregate] of
    [src/backend/commands/aggregatecmds.c]. *)

From Stdlib Require Import ZArith List String Ascii Bool Lia.
From Stdlib Require Import Numbers.DecimalString.
From Stdlib Require Numbers.DecimalN Numbers.DecimalPos.
Import ListNotations.

Open Scope string_scope.
Open Scope Z_scope.

(** ** Machine integers

    The C code works on [uint8], [uint16] and [uint32] values; they are
    embedded as [Z] with the wrap-around written out. *)

Definition uint8 (z : Z) : Z := z mod 2 ^ 8.
Definition uint16 (z : Z) : Z := z mod 2 ^ 16.
Definition uint32 (z : Z) : Z := z mod 2 ^ 32.

(** The value of a 32-bit pattern read as a C [int]. *)
Definition sint32 (z : Z) : Z :=
  let u := uint32 z in if u <? 2 ^ 31 then u else u - 2 ^ 32.

(** ** printf conversions

    [appendStringInfo] formats with [%u] (unsigned decimal) and [%d]
    (signed decimal); both consume one 32-bit argument. *)

Definition dec (n : N) : string := NilEmpty.string_of_uint (N.to_uint n).

Definition fmt_u (z : Z) : string := dec (Z.to_N (uint32 z)).

Definition fmt_d (z : Z) : string :=
  let v := sint32 z in
  if v <? 0 then "-" ++ dec (Z.to_N (- v)) else dec (Z.to_N v).

(** ** Memory

    A record's payload is reached through a [char *]; the routines
    reinterpret the bytes behind it as a C struct.  Memory is a map from
    addresses to bytes, total because a C load does not know where the
    record ends. *)

Definition Mem := Z -> Z.

Definition load_u8 (m : Mem) (a : Z) : Z := uint8 (m a).

Definition load_u16 (m : Mem) (a : Z) : Z :=
  Z.lor (load_u8 m a) (Z.shiftl (load_u8 m (a + 1)) 8).

Definition load_u32 (m : Mem) (a : Z) : Z :=
  Z.lor (load_u16 m a) (Z.shiftl (load_u16 m (a + 2)) 16).

(** The bytes of [l] laid out from address [base] on, zero elsewhere. *)
Definition mem_of_bytes (base : Z) (l : list Z) : Mem :=
  fun a => if a <? base then 0 else nth (Z.to_nat (a - base)) l 0.

(** Two memories hold the same [len] bytes from address [p] on. *)
Definition agree_on (m m' : Mem) (p len : Z) : Prop :=
  forall a, p <= a < p + len -> m a = m' a.

(** ** Record layouts

    Modelled from the spec: the struct declarations ([access/nbtree.h],
    [access/gist_private.h], [storage/relfilenode.h], [storage/itemptr.h])
    are not among the sources.  The field names are the ones the
    routines dereference; the order is the one of the header table of the
    specification, laid out as its binary-layout section says: fixed-size
    integers in declared order with no padding between fields, in the
    producer's byte order (little-endian here).  Identifiers, block
    numbers, transaction ids and levels are 32 bits wide (they are
    printed with [%u]); offset numbers and page counts are 16 bits wide. *)

Module RelFileNode.
(** Modelled from the spec: the relation locator: tablespace, database and
    relation identifier; the struct is declared in a header that is not
    among the sources. *)
Record t : Type := { spcNode : Z; dbNode : Z; relNode : Z }.
(** Modelled from the spec: the bytes the fields span, without padding. *)
Definition size : Z := 12.
(** Modelled from the spec: the fields as a cast of the payload reads
    them, in declared order. *)
Definition cast (m : Mem) (p : Z) : t :=
  {| spcNode := load_u32 m p;
     dbNode := load_u32 m (p + 4);
     relNode := load_u32 m (p + 8) |}.
End RelFileNode.

Module ItemPointerData.
(** Modelled from the spec: the item address: block number and offset
    number; the struct is declared in a header that is not among the
    sources. *)
Record t : Type := { ip_blkid : Z; ip_posid : Z }.
(** Modelled from the spec: the bytes the fields span, without padding. *)
Definition size : Z := 6.
(** Modelled from the spec: the fields as a cast of the payload reads
    them, in declared order. *)
Definition cast (m : Mem) (p : Z) : t :=
  {| ip_blkid := load_u32 m p; ip_posid := load_u16 m (p + 4) |}.
End ItemPointerData.

(** Modelled from the spec: the accessor macros of the item address
    ([storage/itemptr.h] is not among the sources). *)
Definition ItemPointerGetBlockNumber (pointer : ItemPointerData.t) : Z :=
  ItemPointerData.ip_blkid pointer.

(** Modelled from the spec: the offset half of the item address. *)
Definition ItemPointerGetOffsetNumber (pointer : ItemPointerData.t) : Z :=
  ItemPointerData.ip_posid pointer.

Module xl_btreetid.
(** Modelled from the spec: the target of an ordered-tree record: relation
    locator and item address; the struct is declared in a header that is
    not among the sources. *)
Record t : Type := { node : RelFileNode.t; tid : ItemPointerData.t }.
(** Modelled from the spec: the bytes the fields span, without padding. *)
Definition size : Z := 18.
(** Modelled from the spec: the fields as a cast of the payload reads
    them, in declared order. *)
Definition cast (m : Mem) (p : Z) : t :=
  {| node := RelFileNode.cast m p; tid := ItemPointerData.cast m (p + 12) |}.
End xl_btreetid.

Module xl_btree_insert.
(** Modelled from the spec: header of the three insert kinds; the struct
    is declared in a header that is not among the sources. *)
Record t : Type := { target : xl_btreetid.t }.
(** Modelled from the spec: the bytes the fields span, without padding. *)
Definition size : Z := 18.
(** Modelled from the spec: the fields as a cast of the payload reads
    them, in declared order. *)
Definition cast (m : Mem) (p : Z) : t := {| target := xl_btreetid.cast m p |}.
End xl_btree_insert.

Module xl_btree_split.
(** Modelled from the spec: header of the four split kinds; the struct is
    declared in a header that is not among the sources. *)
Record t : Type :=
    { node : RelFileNode.t; leftsib : Z; rightsib : Z; rnext : Z;
      level : Z; firstright : Z }.
(** Modelled from the spec: the bytes the fields span, without padding. *)
Definition size : Z := 30.
(** Modelled from the spec: the fields as a cast of the payload reads
    them, in declared order. *)
Definition cast (m : Mem) (p : Z) : t :=
  {| node := RelFileNode.cast m p;
     leftsib := load_u32 m (p + 12);
     rightsib := load_u32 m (p + 16);
     rnext := load_u32 m (p + 20);
     level := load_u32 m (p + 24);
     firstright := load_u16 m (p + 28) |}.
End xl_btree_split.

Module xl_btree_vacuum.
(** Modelled from the spec: header of vacuum-page; the struct is declared
    in a header that is not among the sources. *)
Record t : Type :=
    { node : RelFileNode.t; block : Z; lastBlockVacuumed : Z }.
(** Modelled from the spec: the bytes the fields span, without padding. *)
Definition size : Z := 20.
(** Modelled from the spec: the fields as a cast of the payload reads
    them, in declared order. *)
Definition cast (m : Mem) (p : Z) : t :=
  {| node := RelFileNode.cast m p;
     block := load_u32 m (p + 12);
     lastBlockVacuumed := load_u32 m (p + 16) |}.
End xl_btree_vacuum.

Module xl_btree_delete.
(** Modelled from the spec: header of delete-entries; the struct is
    declared in a header that is not among the sources. *)
Record t : Type :=
    { node : RelFileNode.t; block : Z; hnode : RelFileNode.t }.
(** Modelled from the spec: the bytes the fields span, without padding. *)
Definition size : Z := 28.
(** Modelled from the spec: the fields as a cast of the payload reads
    them, in declared order. *)
Definition cast (m : Mem) (p : Z) : t :=
  {| node := RelFileNode.cast m p;
     block := load_u32 m (p + 12);
     hnode := RelFileNode.cast m (p + 16) |}.
End xl_btree_delete.

Module xl_btree_mark_page_halfdead.
(** Modelled from the spec: header of mark-page-half-dead; the struct is
    declared in a header that is not among the sources. *)
Record t : Type :=
    { target : xl_btreetid.t; topparent : Z; leafblk : Z;
      leftblk : Z; rightblk : Z }.
(** Modelled from the spec: the bytes the fields span, without padding. *)
Definition size : Z := 34.
(** Modelled from the spec: the fields as a cast of the payload reads
    them, in declared order. *)
Definition cast (m : Mem) (p : Z) : t :=
  {| target := xl_btreetid.cast m p;
     topparent := load_u32 m (p + 18);
     leafblk := load_u32 m (p + 22);
     leftblk := load_u32 m (p + 26);
     rightblk := load_u32 m (p + 30) |}.
End xl_btree_mark_page_halfdead.

Module xl_btree_unlink_page.
(** Modelled from the spec: header of the two unlink-page kinds; the
    struct is declared in a header that is not among the sources. *)
Record t : Type :=
    { node : RelFileNode.t; deadblk : Z; leftsib : Z; rightsib : Z;
      btpo_xact : Z; leafblk : Z; leafleftsib : Z; leafrightsib : Z;
      topparent : Z }.
(** Modelled from the spec: the bytes the fields span, without padding. *)
Definition size : Z := 44.
(** Modelled from the spec: the fields as a cast of the payload reads
    them, in declared order. *)
Definition cast (m : Mem) (p : Z) : t :=
  {| node := RelFileNode.cast m p;
     deadblk := load_u32 m (p + 12);
     leftsib := load_u32 m (p + 16);
     rightsib := load_u32 m (p + 20);
     btpo_xact := load_u32 m (p + 24);
     leafblk := load_u32 m (p + 28);
     leafleftsib := load_u32 m (p + 32);
     leafrightsib := load_u32 m (p + 36);
     topparent := load_u32 m (p + 40) |}.
End xl_btree_unlink_page.

Module xl_btree_newroot.
(** Modelled from the spec: header of install-new-root; the struct is
    declared in a header that is not among the sources. *)
Record t : Type := { node : RelFileNode.t; rootblk : Z; level : Z }.
(** Modelled from the spec: the bytes the fields span, without padding. *)
Definition size : Z := 20.
(** Modelled from the spec: the fields as a cast of the payload reads
    them, in declared order. *)
Definition cast (m : Mem) (p : Z) : t :=
  {| node := RelFileNode.cast m p;
     rootblk := load_u32 m (p + 12);
     level := load_u32 m (p + 16) |}.
End xl_btree_newroot.

Module xl_btree_reuse_page.
(** Modelled from the spec: header of reuse-page; the struct is declared
    in a header that is not among the sources. *)
Record t : Type := { node : RelFileNode.t; latestRemovedXid : Z }.
(** Modelled from the spec: the bytes the fields span, without padding. *)
Definition size : Z := 16.
(** Modelled from the spec: the fields as a cast of the payload reads
    them, in declared order. *)
Definition cast (m : Mem) (p : Z) : t :=
  {| node := RelFileNode.cast m p;
     latestRemovedXid := load_u32 m (p + 12) |}.
End xl_btree_reuse_page.

Module gistxlogPageUpdate.
(** Modelled from the spec: header of update-page of the hierarchical
    tree; the struct is declared in a header that is not among the
    sources. *)
Record t : Type := { node : RelFileNode.t; blkno : Z }.
(** Modelled from the spec: the bytes the fields span, without padding. *)
Definition size : Z := 16.
(** Modelled from the spec: the fields as a cast of the payload reads
    them, in declared order. *)
Definition cast (m : Mem) (p : Z) : t :=
  {| node := RelFileNode.cast m p; blkno := load_u32 m (p + 12) |}.
End gistxlogPageUpdate.

Module gistxlogPageSplit.
(** Modelled from the spec: header of split-page of the hierarchical tree;
    the struct is declared in a header that is not among the sources. *)
Record t : Type := { node : RelFileNode.t; origblkno : Z; npage : Z }.
(** Modelled from the spec: the bytes the fields span, without padding. *)
Definition size : Z := 18.
(** Modelled from the spec: the fields as a cast of the payload reads
    them, in declared order. *)
Definition cast (m : Mem) (p : Z) : t :=
  {| node := RelFileNode.cast m p;
     origblkno := load_u32 m (p + 12);
     npage := load_u16 m (p + 16) |}.
End gistxlogPageSplit.

(** ** Log records and the output buffer *)

(** The fixed part of a log record as the routines use it: the info byte,
    the payload length, and the address [XLogRecGetData] yields (the
    payload follows the record header in memory). *)
Record XLogRecord : Type :=
  { xl_info : Z; xl_len : Z; xl_data : Z }.

Definition XLogRecGetData (record : XLogRecord) : Z := xl_data record.

(** What a description routine can touch: the memory the record lives in
    and the text held by the [StringInfo] it is handed. *)
Record World : Type := { heap : Mem; buf : string }.

(** [appendStringInfo] and [appendStringInfoString] ([lib/stringinfo.h])
    add text at the end of the buffer; the conversions are expanded at
    the call, so both take the finished text. *)
Definition appendStringInfo (w : World) (text : string) : World :=
  {| heap := heap w; buf := buf w ++ text |}.

Definition appendStringInfoString (w : World) (text : string) : World :=
  {| heap := heap w; buf := buf w ++ text |}.

(** ** Constants of the absent headers

    The info-byte tags ([access/nbtree.h], [access/gist_private.h]) and
    the flag mask of the info byte ([access/xlog.h]) are macros whose
    values the sources do not show.  Everything below is parametric in
    them. *)
Class XlogConsts : Type :=
  { XLR_INFO_MASK : Z;
    XLOG_BTREE_INSERT_LEAF : Z;
    XLOG_BTREE_INSERT_UPPER : Z;
    XLOG_BTREE_INSERT_META : Z;
    XLOG_BTREE_SPLIT_L : Z;
    XLOG_BTREE_SPLIT_R : Z;
    XLOG_BTREE_SPLIT_L_ROOT : Z;
    XLOG_BTREE_SPLIT_R_ROOT : Z;
    XLOG_BTREE_VACUUM : Z;
    XLOG_BTREE_DELETE : Z;
    XLOG_BTREE_MARK_PAGE_HALFDEAD : Z;
    XLOG_BTREE_UNLINK_PAGE : Z;
    XLOG_BTREE_UNLINK_PAGE_META : Z;
    XLOG_BTREE_NEWROOT : Z;
    XLOG_BTREE_REUSE_PAGE : Z;
    XLOG_GIST_PAGE_UPDATE : Z;
    XLOG_GIST_PAGE_SPLIT : Z;
    XLOG_GIST_CREATE_INDEX : Z }.

(** A [switch] arm guarded by the labels [labels]. *)
Definition case_of (info : Z) (labels : list Z) : bool :=
  existsb (Z.eqb info) labels.

(** The rendering [%u/%u/%u] of a relation locator. *)
Definition fmt_node (n : RelFileNode.t) : string :=
  fmt_u (RelFileNode.spcNode n) ++ "/" ++ fmt_u (RelFileNode.dbNode n)
  ++ "/" ++ fmt_u (RelFileNode.relNode n).

(** [record->xl_info & ~XLR_INFO_MASK], stored in a [uint8]: the first
    statement of both description routines. *)
Definition record_info {C : XlogConsts} (record : XLogRecord) : Z :=
  uint8 (Z.land (xl_info record) (Z.lnot XLR_INFO_MASK)).

(** ** nbtdesc.c *)

Module nbtdesc.
Section Routines.

Context {C : XlogConsts}.

Definition out_target (w : World) (target : xl_btreetid.t) : World :=
  appendStringInfo w
    ("rel " ++ fmt_node (xl_btreetid.node target)
     ++ "; tid " ++ fmt_u (ItemPointerGetBlockNumber (xl_btreetid.tid target))
     ++ "/" ++ fmt_u (ItemPointerGetOffsetNumber (xl_btreetid.tid target))).

Definition btree_desc (w : World) (record : XLogRecord) : World :=
  let rec := XLogRecGetData record in
  let info := record_info record in
  if case_of info [XLOG_BTREE_INSERT_LEAF; XLOG_BTREE_INSERT_UPPER;
                   XLOG_BTREE_INSERT_META] then
    let xlrec := xl_btree_insert.cast (heap w) rec in
    out_target w (xl_btree_insert.target xlrec)
  else if case_of info [XLOG_BTREE_SPLIT_L; XLOG_BTREE_SPLIT_R;
                        XLOG_BTREE_SPLIT_L_ROOT; XLOG_BTREE_SPLIT_R_ROOT] then
    let xlrec := xl_btree_split.cast (heap w) rec in
    let w1 := appendStringInfo w
                ("rel " ++ fmt_node (xl_btree_split.node xlrec) ++ " ") in
    appendStringInfo w1
      ("left " ++ fmt_u (xl_btree_split.leftsib xlrec)
       ++ ", right " ++ fmt_u (xl_btree_split.rightsib xlrec)
       ++ ", next " ++ fmt_u (xl_btree_split.rnext xlrec)
       ++ ", level " ++ fmt_u (xl_btree_split.level xlrec)
       ++ ", firstright " ++ fmt_d (xl_btree_split.firstright xlrec))
  else if case_of info [XLOG_BTREE_VACUUM] then
    let xlrec := xl_btree_vacuum.cast (heap w) rec in
    appendStringInfo w
      ("rel " ++ fmt_node (xl_btree_vacuum.node xlrec)
       ++ "; blk " ++ fmt_u (xl_btree_vacuum.block xlrec)
       ++ ", lastBlockVacuumed "
       ++ fmt_u (xl_btree_vacuum.lastBlockVacuumed xlrec))
  else if case_of info [XLOG_BTREE_DELETE] then
    let xlrec := xl_btree_delete.cast (heap w) rec in
    appendStringInfo w
      ("index " ++ fmt_node (xl_btree_delete.node xlrec)
       ++ "; iblk " ++ fmt_u (xl_btree_delete.block xlrec)
       ++ ", heap " ++ fmt_node (xl_btree_delete.hnode xlrec) ++ ";")
  else if case_of info [XLOG_BTREE_MARK_PAGE_HALFDEAD] then
    let xlrec := xl_btree_mark_page_halfdead.cast (heap w) rec in
    let w1 := out_target w (xl_btree_mark_page_halfdead.target xlrec) in
    appendStringInfo w1
      ("; topparent " ++ fmt_u (xl_btree_mark_page_halfdead.topparent xlrec)
       ++ "; leaf " ++ fmt_u (xl_btree_mark_page_halfdead.leafblk xlrec)
       ++ "; left " ++ fmt_u (xl_btree_mark_page_halfdead.leftblk xlrec)
       ++ "; right " ++ fmt_u (xl_btree_mark_page_halfdead.rightblk xlrec))
  else if case_of info [XLOG_BTREE_UNLINK_PAGE_META;
                        XLOG_BTREE_UNLINK_PAGE] then
    let xlrec := xl_btree_unlink_page.cast (heap w) rec in
    let w1 := appendStringInfo w
                ("rel " ++ fmt_node (xl_btree_unlink_page.node xlrec)
                 ++ "; ") in
    let w2 := appendStringInfo w1
                ("dead " ++ fmt_u (xl_btree_unlink_page.deadblk xlrec)
                 ++ "; left " ++ fmt_u (xl_btree_unlink_page.leftsib xlrec)
                 ++ "; right " ++ fmt_u (xl_btree_unlink_page.rightsib xlrec)
                 ++ "; btpo_xact "
                 ++ fmt_u (xl_btree_unlink_page.btpo_xact xlrec) ++ "; ") in
    appendStringInfo w2
      ("leaf " ++ fmt_u (xl_btree_unlink_page.leafblk xlrec)
       ++ "; leafleft " ++ fmt_u (xl_btree_unlink_page.leafleftsib xlrec)
       ++ "; leafright " ++ fmt_u (xl_btree_unlink_page.leafrightsib xlrec)
       ++ "; topparent " ++ fmt_u (xl_btree_unlink_page.topparent xlrec))
  else if case_of info [XLOG_BTREE_NEWROOT] then
    let xlrec := xl_btree_newroot.cast (heap w) rec in
    appendStringInfo w
      ("rel " ++ fmt_node (xl_btree_newroot.node xlrec)
       ++ "; root " ++ fmt_u (xl_btree_newroot.rootblk xlrec)
       ++ " lev " ++ fmt_u (xl_btree_newroot.level xlrec))
  else if case_of info [XLOG_BTREE_REUSE_PAGE] then
    let xlrec := xl_btree_reuse_page.cast (heap w) rec in
    appendStringInfo w
      ("rel " ++ fmt_node (xl_btree_reuse_page.node xlrec)
       ++ "; latestRemovedXid "
       ++ fmt_u (xl_btree_reuse_page.latestRemovedXid xlrec))
  else w.

Definition btree_identify (info : Z) : option string :=
  let id := None in
  if case_of info [XLOG_BTREE_INSERT_LEAF] then Some "INSERT_LEAF"
  else if case_of info [XLOG_BTREE_INSERT_UPPER] then Some "INSERT_UPPER"
  else if case_of info [XLOG_BTREE_INSERT_META] then Some "INSERT_META"
  else if case_of info [XLOG_BTREE_SPLIT_L] then Some "SPLIT_L"
  else if case_of info [XLOG_BTREE_SPLIT_R] then Some "SPLIT_R"
  else if case_of info [XLOG_BTREE_SPLIT_L_ROOT] then Some "SPLIT_L_ROOT"
  else if case_of info [XLOG_BTREE_SPLIT_R_ROOT] then Some "SPLIT_R_ROOT"
  else if case_of info [XLOG_BTREE_VACUUM] then Some "VACUUM"
  else if case_of info [XLOG_BTREE_DELETE] then Some "DELETE"
  else if case_of info [XLOG_BTREE_MARK_PAGE_HALFDEAD]
       then Some "MARK_PAGE_HALFDEAD"
  else if case_of info [XLOG_BTREE_UNLINK_PAGE] then Some "UNLINK_PAGE"
  else if case_of info [XLOG_BTREE_UNLINK_PAGE_META]
       then Some "UNLINK_PAGE_META"
  else if case_of info [XLOG_BTREE_NEWROOT] then Some "NEWROOT"
  else if case_of info [XLOG_BTREE_REUSE_PAGE] then Some "REUSE_PAGE"
  else id.

End Routines.
End nbtdesc.

(** ** gistdesc.c *)

Module gistdesc.
Section Routines.

Context {C : XlogConsts}.

Definition out_target (w : World) (node : RelFileNode.t) : World :=
  appendStringInfo w ("rel " ++ fmt_node node).

Definition out_gistxlogPageUpdate (w : World) (xlrec : gistxlogPageUpdate.t)
  : World :=
  let w1 := out_target w (gistxlogPageUpdate.node xlrec) in
  appendStringInfo w1
    ("; block number " ++ fmt_u (gistxlogPageUpdate.blkno xlrec)).

Definition out_gistxlogPageSplit (w : World) (xlrec : gistxlogPageSplit.t)
  : World :=
  let w1 := appendStringInfoString w "page_split: " in
  let w2 := out_target w1 (gistxlogPageSplit.node xlrec) in
  appendStringInfo w2
    ("; block number " ++ fmt_u (gistxlogPageSplit.origblkno xlrec)
     ++ " splits to " ++ fmt_d (gistxlogPageSplit.npage xlrec) ++ " pages").

Definition gist_desc (w : World) (record : XLogRecord) : World :=
  let rec := XLogRecGetData record in
  let info := record_info record in
  if case_of info [XLOG_GIST_PAGE_UPDATE] then
    out_gistxlogPageUpdate w (gistxlogPageUpdate.cast (heap w) rec)
  else if case_of info [XLOG_GIST_PAGE_SPLIT] then
    out_gistxlogPageSplit w (gistxlogPageSplit.cast (heap w) rec)
  else if case_of info [XLOG_GIST_CREATE_INDEX] then
    appendStringInfo w ("rel " ++ fmt_node (RelFileNode.cast (heap w) rec))
  else w.

Definition gist_identify (info : Z) : option string :=
  let id := None in
  if case_of info [XLOG_GIST_PAGE_UPDATE] then Some "PAGE_UPDATE"
  else if case_of info [XLOG_GIST_PAGE_SPLIT] then Some "PAGE_SPLIT"
  else if case_of info [XLOG_GIST_CREATE_INDEX] then Some "CREATE_INDEX"
  else id.

End Routines.
End gistdesc.

Import nbtdesc gistdesc.

(** The case labels of the two [switch] statements, in source order.
    Labels of one [switch] are pairwise distinct constants (a C compiler
    rejects a duplicate), so the arm taken does not depend on the order
    in which the embedding tries them; results that single out a later
    arm assume [NoDup] of the labels. *)
Definition btree_labels {C : XlogConsts} : list Z :=
  [XLOG_BTREE_INSERT_LEAF; XLOG_BTREE_INSERT_UPPER; XLOG_BTREE_INSERT_META;
   XLOG_BTREE_SPLIT_L; XLOG_BTREE_SPLIT_R; XLOG_BTREE_SPLIT_L_ROOT;
   XLOG_BTREE_SPLIT_R_ROOT; XLOG_BTREE_VACUUM; XLOG_BTREE_DELETE;
   XLOG_BTREE_MARK_PAGE_HALFDEAD; XLOG_BTREE_UNLINK_PAGE;
   XLOG_BTREE_UNLINK_PAGE_META; XLOG_BTREE_NEWROOT; XLOG_BTREE_REUSE_PAGE].

Definition gist_labels {C : XlogConsts} : list Z :=
  [XLOG_GIST_PAGE_UPDATE; XLOG_GIST_PAGE_SPLIT; XLOG_GIST_CREATE_INDEX].

(** The text a routine renders for a record: what it appends to an empty
    buffer. *)
Definition btree_text {C : XlogConsts} (m : Mem) (record : XLogRecord)
  : string :=
  buf (btree_desc {| heap := m; buf := "" |} record).

Definition gist_text {C : XlogConsts} (m : Mem) (record : XLogRecord)
  : string :=
  buf (gist_desc {| heap := m; buf := "" |} record).

(** The number of payload bytes the arm taken for [info] dereferences:
    the extent of the struct the payload is cast to. *)
Definition btree_header_size {C : XlogConsts} (info : Z) : Z :=
  if case_of info [XLOG_BTREE_INSERT_LEAF; XLOG_BTREE_INSERT_UPPER;
                   XLOG_BTREE_INSERT_META] then xl_btree_insert.size
  else if case_of info [XLOG_BTREE_SPLIT_L; XLOG_BTREE_SPLIT_R;
                        XLOG_BTREE_SPLIT_L_ROOT; XLOG_BTREE_SPLIT_R_ROOT]
       then xl_btree_split.size
  else if case_of info [XLOG_BTREE_VACUUM] then xl_btree_vacuum.size
  else if case_of info [XLOG_BTREE_DELETE] then xl_btree_delete.size
  else if case_of info [XLOG_BTREE_MARK_PAGE_HALFDEAD]
       then xl_btree_mark_page_halfdead.size
  else if case_of info [XLOG_BTREE_UNLINK_PAGE_META; XLOG_BTREE_UNLINK_PAGE]
       then xl_btree_unlink_page.size
  else if case_of info [XLOG_BTREE_NEWROOT] then xl_btree_newroot.size
  else if case_of info [XLOG_BTREE_REUSE_PAGE] then xl_btree_reuse_page.size
  else 0.

Definition gist_header_size {C : XlogConsts} (info : Z) : Z :=
  if case_of info [XLOG_GIST_PAGE_UPDATE] then gistxlogPageUpdate.size
  else if case_of info [XLOG_GIST_PAGE_SPLIT] then gistxlogPageSplit.size
  else if case_of info [XLOG_GIST_CREATE_INDEX] then RelFileNode.size
  else 0.

(** ** The two resource managers side by side

    The access methods the sources cover, and their routines selected by
    access method (the resource-manager table hands out the same pair). *)
Inductive AccessMethod : Type := Btree | Gist.

Definition rm_desc {C : XlogConsts} (am : AccessMethod)
  : World -> XLogRecord -> World :=
  match am with Btree => btree_desc | Gist => gist_desc end.

Definition rm_identify {C : XlogConsts} (am : AccessMethod)
  : Z -> option string :=
  match am with Btree => btree_identify | Gist => gist_identify end.

Definition rm_labels {C : XlogConsts} (am : AccessMethod) : list Z :=
  match am with Btree => btree_labels | Gist => gist_labels end.

Definition rm_text {C : XlogConsts} (am : AccessMethod)
  : Mem -> XLogRecord -> string :=
  match am with Btree => btree_text | Gist => gist_text end.

Definition rm_header_size {C : XlogConsts} (am : AccessMethod) : Z -> Z :=
  match am with Btree => btree_header_size | Gist => gist_header_size end.

(** A sample assignment of the constants, used to run the routines on
    concrete records: the info mask keeps the high four bits and the
    kinds are numbered in steps of sixteen, as upstream headers do. *)
Definition sample_consts : XlogConsts :=
  {| XLR_INFO_MASK := 15;
     XLOG_BTREE_INSERT_LEAF := 0;
     XLOG_BTREE_INSERT_UPPER := 16;
     XLOG_BTREE_INSERT_META := 32;
     XLOG_BTREE_SPLIT_L := 48;
     XLOG_BTREE_SPLIT_R := 64;
     XLOG_BTREE_SPLIT_L_ROOT := 80;
     XLOG_BTREE_SPLIT_R_ROOT := 96;
     XLOG_BTREE_DELETE := 112;
     XLOG_BTREE_UNLINK_PAGE := 128;
     XLOG_BTREE_UNLINK_PAGE_META := 144;
     XLOG_BTREE_NEWROOT := 160;
     XLOG_BTREE_MARK_PAGE_HALFDEAD := 176;
     XLOG_BTREE_VACUUM := 192;
     XLOG_BTREE_REUSE_PAGE := 208;
     XLOG_GIST_PAGE_UPDATE := 0;
     XLOG_GIST_PAGE_SPLIT := 48;
     XLOG_GIST_CREATE_INDEX := 80 |}.

(** ** The record as the routines see it

    The tagged union of the payload shapes the two [switch] statements
    discriminate: one constructor per struct a payload is cast to. *)
Inductive LogRecord : Type :=
  | BtreeInsert (x : xl_btree_insert.t)
  | BtreeSplit (x : xl_btree_split.t)
  | BtreeVacuum (x : xl_btree_vacuum.t)
  | BtreeDelete (x : xl_btree_delete.t)
  | BtreeMarkPageHalfdead (x : xl_btree_mark_page_halfdead.t)
  | BtreeUnlinkPage (x : xl_btree_unlink_page.t)
  | BtreeNewroot (x : xl_btree_newroot.t)
  | BtreeReusePage (x : xl_btree_reuse_page.t)
  | GistPageUpdate (x : gistxlogPageUpdate.t)
  | GistPageSplit (x : gistxlogPageSplit.t)
  | GistCreateIndex (x : RelFileNode.t).

(** The cast each arm of [btree_desc] applies to the payload. *)
Definition btree_decode {C : XlogConsts} (m : Mem) (record : XLogRecord)
  : option LogRecord :=
  let rec := XLogRecGetData record in
  let info := record_info record in
  if case_of info [XLOG_BTREE_INSERT_LEAF; XLOG_BTREE_INSERT_UPPER;
                   XLOG_BTREE_INSERT_META]
  then Some (BtreeInsert (xl_btree_insert.cast m rec))
  else if case_of info [XLOG_BTREE_SPLIT_L; XLOG_BTREE_SPLIT_R;
                        XLOG_BTREE_SPLIT_L_ROOT; XLOG_BTREE_SPLIT_R_ROOT]
  then Some (BtreeSplit (xl_btree_split.cast m rec))
  else if case_of info [XLOG_BTREE_VACUUM]
  then Some (BtreeVacuum (xl_btree_vacuum.cast m rec))
  else if case_of info [XLOG_BTREE_DELETE]
  then Some (BtreeDelete (xl_btree_delete.cast m rec))
  else if case_of info [XLOG_BTREE_MARK_PAGE_HALFDEAD]
  then Some (BtreeMarkPageHalfdead (xl_btree_mark_page_halfdead.cast m rec))
  else if case_of info [XLOG_BTREE_UNLINK_PAGE_META; XLOG_BTREE_UNLINK_PAGE]
  then Some (BtreeUnlinkPage (xl_btree_unlink_page.cast m rec))
  else if case_of info [XLOG_BTREE_NEWROOT]
  then Some (BtreeNewroot (xl_btree_newroot.cast m rec))
  else if case_of info [XLOG_BTREE_REUSE_PAGE]
  then Some (BtreeReusePage (xl_btree_reuse_page.cast m rec))
  else None.

(** The cast each arm of [gist_desc] applies to the payload. *)
Definition gist_decode {C : XlogConsts} (m : Mem) (record : XLogRecord)
  : option LogRecord :=
  let rec := XLogRecGetData record in
  let info := record_info record in
  if case_of info [XLOG_GIST_PAGE_UPDATE]
  then Some (GistPageUpdate (gistxlogPageUpdate.cast m rec))
  else if case_of info [XLOG_GIST_PAGE_SPLIT]
  then Some (GistPageSplit (gistxlogPageSplit.cast m rec))
  else if case_of info [XLOG_GIST_CREATE_INDEX]
  then Some (GistCreateIndex (RelFileNode.cast m rec))
  else None.

Definition rm_decode {C : XlogConsts} (am : AccessMethod)
  : Mem -> XLogRecord -> option LogRecord :=
  match am with Btree => btree_decode | Gist => gist_decode end.

(** The relation locators a record carries. *)
Definition locators (r : LogRecord) : list RelFileNode.t :=
  match r with
  | BtreeInsert x => [xl_btreetid.node (xl_btree_insert.target x)]
  | BtreeSplit x => [xl_btree_split.node x]
  | BtreeVacuum x => [xl_btree_vacuum.node x]
  | BtreeDelete x => [xl_btree_delete.node x; xl_btree_delete.hnode x]
  | BtreeMarkPageHalfdead x =>
      [xl_btreetid.node (xl_btree_mark_page_halfdead.target x)]
  | BtreeUnlinkPage x => [xl_btree_unlink_page.node x]
  | BtreeNewroot x => [xl_btree_newroot.node x]
  | BtreeReusePage x => [xl_btree_reuse_page.node x]
  | GistPageUpdate x => [gistxlogPageUpdate.node x]
  | GistPageSplit x => [gistxlogPageSplit.node x]
  | GistCreateIndex x => [x]
  end.

(** The item addresses a record carries. *)
Definition item_addresses (r : LogRecord) : list ItemPointerData.t :=
  match r with
  | BtreeInsert x => [xl_btreetid.tid (xl_btree_insert.target x)]
  | BtreeMarkPageHalfdead x =>
      [xl_btreetid.tid (xl_btree_mark_page_halfdead.target x)]
  | _ => []
  end.

(** The rendering [%u/%u] of an item address. *)
Definition fmt_tid (p : ItemPointerData.t) : string :=
  fmt_u (ItemPointerGetBlockNumber p) ++ "/"
  ++ fmt_u (ItemPointerGetOffsetNumber p).

(** The text the arm taken for a decoded record appends, as one string:
    the typed reading of the format strings of [btree_desc] and
    [gist_desc], to which the routines are compared below. *)
Definition format (r : LogRecord) : string :=
  match r with
  | BtreeInsert x =>
      "rel " ++ fmt_node (xl_btreetid.node (xl_btree_insert.target x))
      ++ "; tid " ++ fmt_tid (xl_btreetid.tid (xl_btree_insert.target x))
  | BtreeSplit x =>
      "rel " ++ fmt_node (xl_btree_split.node x)
      ++ " left " ++ fmt_u (xl_btree_split.leftsib x)
      ++ ", right " ++ fmt_u (xl_btree_split.rightsib x)
      ++ ", next " ++ fmt_u (xl_btree_split.rnext x)
      ++ ", level " ++ fmt_u (xl_btree_split.level x)
      ++ ", firstright " ++ fmt_d (xl_btree_split.firstright x)
  | BtreeVacuum x =>
      "rel " ++ fmt_node (xl_btree_vacuum.node x)
      ++ "; blk " ++ fmt_u (xl_btree_vacuum.block x)
      ++ ", lastBlockVacuumed " ++ fmt_u (xl_btree_vacuum.lastBlockVacuumed x)
  | BtreeDelete x =>
      "index " ++ fmt_node (xl_btree_delete.node x)
      ++ "; iblk " ++ fmt_u (xl_btree_delete.block x)
      ++ ", heap " ++ fmt_node (xl_btree_delete.hnode x) ++ ";"
  | BtreeMarkPageHalfdead x =>
      "rel "
      ++ fmt_node (xl_btreetid.node (xl_btree_mark_page_halfdead.target x))
      ++ "; tid "
      ++ fmt_tid (xl_btreetid.tid (xl_btree_mark_page_halfdead.target x))
      ++ "; topparent " ++ fmt_u (xl_btree_mark_page_halfdead.topparent x)
      ++ "; leaf " ++ fmt_u (xl_btree_mark_page_halfdead.leafblk x)
      ++ "; left " ++ fmt_u (xl_btree_mark_page_halfdead.leftblk x)
      ++ "; right " ++ fmt_u (xl_btree_mark_page_halfdead.rightblk x)
  | BtreeUnlinkPage x =>
      "rel " ++ fmt_node (xl_btree_unlink_page.node x)
      ++ "; dead " ++ fmt_u (xl_btree_unlink_page.deadblk x)
      ++ "; left " ++ fmt_u (xl_btree_unlink_page.leftsib x)
      ++ "; right " ++ fmt_u (xl_btree_unlink_page.rightsib x)
      ++ "; btpo_xact " ++ fmt_u (xl_btree_unlink_page.btpo_xact x)
      ++ "; leaf " ++ fmt_u (xl_btree_unlink_page.leafblk x)
      ++ "; leafleft " ++ fmt_u (xl_btree_unlink_page.leafleftsib x)
      ++ "; leafright " ++ fmt_u (xl_btree_unlink_page.leafrightsib x)
      ++ "; topparent " ++ fmt_u (xl_btree_unlink_page.topparent x)
  | BtreeNewroot x =>
      "rel " ++ fmt_node (xl_btree_newroot.node x)
      ++ "; root " ++ fmt_u (xl_btree_newroot.rootblk x)
      ++ " lev " ++ fmt_u (xl_btree_newroot.level x)
  | BtreeReusePage x =>
      "rel " ++ fmt_node (xl_btree_reuse_page.node x)
      ++ "; latestRemovedXid "
      ++ fmt_u (xl_btree_reuse_page.latestRemovedXid x)
  | GistPageUpdate x =>
      "rel " ++ fmt_node (gistxlogPageUpdate.node x)
      ++ "; block number " ++ fmt_u (gistxlogPageUpdate.blkno x)
  | GistPageSplit x =>
      "page_split: rel " ++ fmt_node (gistxlogPageSplit.node x)
      ++ "; block number " ++ fmt_u (gistxlogPageSplit.origblkno x)
      ++ " splits to " ++ fmt_d (gistxlogPageSplit.npage x) ++ " pages"
  | GistCreateIndex x => "rel " ++ fmt_node x
  end.

(** [t] occurs in [s]. *)
Definition includes (s t : string) : Prop :=
  exists pre post, s = pre ++ t ++ post.

(** *** The rendering as the specification words it

    The specification speaks of a relation locator written [spc/db/rel],
    of an item address written [block/offset] and of the fields that
    tell the records of a kind apart.  They are written down here from
    those words, without the helpers of the routines, to be compared
    with what the routines print. *)

(** A number in decimal. *)
Definition decimal (z : Z) : string :=
  NilEmpty.string_of_uint (N.to_uint (Z.to_N z)).

(** [spc/db/rel]. *)
Definition locator_text (n : RelFileNode.t) : string :=
  decimal (RelFileNode.spcNode n) ++ "/" ++ decimal (RelFileNode.dbNode n)
  ++ "/" ++ decimal (RelFileNode.relNode n).

(** [block/offset]. *)
Definition item_address_text (p : ItemPointerData.t) : string :=
  decimal (ItemPointerData.ip_blkid p) ++ "/"
  ++ decimal (ItemPointerData.ip_posid p).

(** The fields that tell the records of a kind apart: sibling and other
    block numbers, levels, counts and removal-horizon ids. *)
Definition distinguishing_fields (r : LogRecord) : list Z :=
  match r with
  | BtreeInsert _ => []
  | BtreeSplit x =>
      [xl_btree_split.leftsib x; xl_btree_split.rightsib x;
       xl_btree_split.rnext x; xl_btree_split.level x;
       xl_btree_split.firstright x]
  | BtreeVacuum x =>
      [xl_btree_vacuum.block x; xl_btree_vacuum.lastBlockVacuumed x]
  | BtreeDelete x => [xl_btree_delete.block x]
  | BtreeMarkPageHalfdead x =>
      [xl_btree_mark_page_halfdead.topparent x;
       xl_btree_mark_page_halfdead.leafblk x;
       xl_btree_mark_page_halfdead.leftblk x;
       xl_btree_mark_page_halfdead.rightblk x]
  | BtreeUnlinkPage x =>
      [xl_btree_unlink_page.deadblk x;
       xl_btree_unlink_page.leftsib x;
       xl_btree_unlink_page.rightsib x;
       xl_btree_unlink_page.btpo_xact x;
       xl_btree_unlink_page.leafblk x;
       xl_btree_unlink_page.leafleftsib x;
       xl_btree_unlink_page.leafrightsib x;
       xl_btree_unlink_page.topparent x]
  | BtreeNewroot x => [xl_btree_newroot.rootblk x; xl_btree_newroot.level x]
  | BtreeReusePage x => [xl_btree_reuse_page.latestRemovedXid x]
  | GistPageUpdate x => [gistxlogPageUpdate.blkno x]
  | GistPageSplit x =>
      [gistxlogPageSplit.origblkno x; gistxlogPageSplit.npage x]
  | GistCreateIndex _ => []
  end.

(** Every value a record has printed: the components of its locators
    and item addresses, then its other fields. *)
Definition printed_values (r : LogRecord) : list Z :=
  flat_map (fun n => [RelFileNode.spcNode n; RelFileNode.dbNode n;
                      RelFileNode.relNode n]) (locators r)
  ++ flat_map (fun p => [ItemPointerData.ip_blkid p;
                         ItemPointerData.ip_posid p]) (item_addresses r)
  ++ distinguishing_fields r.

(** Two records were rendered by the same arm. *)
Definition same_arm (r r' : LogRecord) : bool :=
  match r, r' with
  | BtreeInsert _, BtreeInsert _
  | BtreeSplit _, BtreeSplit _
  | BtreeVacuum _, BtreeVacuum _
  | BtreeDelete _, BtreeDelete _
  | BtreeMarkPageHalfdead _, BtreeMarkPageHalfdead _
  | BtreeUnlinkPage _, BtreeUnlinkPage _
  | BtreeNewroot _, BtreeNewroot _
  | BtreeReusePage _, BtreeReusePage _
  | GistPageUpdate _, GistPageUpdate _
  | GistPageSplit _, GistPageSplit _
  | GistCreateIndex _, GistCreateIndex _ => true
  | _, _ => false
  end.

(** A record is read within bounds when the text rendered for it is
    settled by the [xl_len] payload bytes it holds. *)
Definition reads_within {C : XlogConsts} (am : AccessMethod)
  (record : XLogRecord) : Prop :=
  forall m m',
    agree_on m m' (XLogRecGetData record) (xl_len record) ->
    rm_text am m record = rm_text am m' record.

(** ** Replay *)

Module Replay.

(** Modelled from the spec: the replay engine and its dispatcher (the
    redo routines the description routines belong to) are not among the
    sources.  The model follows the sections on the dispatcher, on the
    per-page state machine and on error handling: a page is [Normal],
    [HalfDead], [Unlinked] or [Reusable] and carries the log position of
    the last record applied to it; mark-page-half-dead takes [Normal] to
    [HalfDead] and records the pending top-parent downlink; unlink-page
    takes [HalfDead] to [Unlinked] and carries a removal-horizon xid;
    reuse-page takes [Unlinked] to [Reusable] under the guard that no
    active transaction is older than the record's removal horizon; a
    half-dead page must not be split or reused.  A record of one of these
    kinds that meets a page state the machine has no transition for is an
    invariant violation.  The other kinds change page contents only,
    which the model leaves out together with sibling links. *)
Inductive PageState : Type := Normal | HalfDead | Unlinked | Reusable.

(** Modelled from the spec: what replay tracks of a page, namely its
    state, the log position of the last record applied to it, the pending
    top-parent downlink of a half-dead page and the removal horizon an
    unlink recorded. *)
Record Page : Type :=
  { page_state : PageState;
    page_lsn : Z;
    pending_topparent : option Z;
    removal_horizon : option Z }.

(** Modelled from the spec: the fatal conditions of replay, from the
    error taxonomy. *)
Inductive ReplayError : Type :=
  | UnknownAccessMethod
  | UnknownKind
  | InvariantViolation.

(** Modelled from the spec: replay of one record on one page either
    leaves a page (mutated or skipped) or stops recovery. *)
Inductive Outcome : Type :=
  | Done (p : Page)
  | Fatal (e : ReplayError).

(** Modelled from the spec: the page after a record at position [pos]
    was applied to it; its header takes the record's position. *)
Definition stamp (pos : Z) (st : PageState) (p : Page) : Page :=
  {| page_state := st;
     page_lsn := pos;
     pending_topparent := pending_topparent p;
     removal_horizon := removal_horizon p |}.

(** Modelled from the spec: the reuse guard of the state machine, which
    fails when an active transaction older than the removal horizon
    exists. *)
Definition reuse_guard (active : list Z) (horizon : Z) : bool :=
  negb (existsb (fun xid => xid <? horizon) active).

(** Modelled from the spec: one transition of the per-page state
    machine, for a record that is due on the page. *)
Definition apply_record (active : list Z) (r : LogRecord) (pos : Z)
  (p : Page) : Outcome :=
  match r with
  | BtreeMarkPageHalfdead x =>
      match page_state p with
      | Normal =>
          Done {| page_state := HalfDead;
                  page_lsn := pos;
                  pending_topparent :=
                    Some (xl_btree_mark_page_halfdead.topparent x);
                  removal_horizon := removal_horizon p |}
      | _ => Fatal InvariantViolation
      end
  | BtreeUnlinkPage x =>
      match page_state p with
      | HalfDead =>
          Done {| page_state := Unlinked;
                  page_lsn := pos;
                  pending_topparent := pending_topparent p;
                  removal_horizon :=
                    Some (xl_btree_unlink_page.btpo_xact x) |}
      | _ => Fatal InvariantViolation
      end
  | BtreeReusePage x =>
      match page_state p with
      | Unlinked =>
          if reuse_guard active (xl_btree_reuse_page.latestRemovedXid x)
          then Done (stamp pos Reusable p)
          else Fatal InvariantViolation
      | _ => Fatal InvariantViolation
      end
  | BtreeSplit _ =>
      match page_state p with
      | HalfDead => Fatal InvariantViolation
      | st => Done (stamp pos st p)
      end
  | _ => Done (stamp pos (page_state p) p)
  end.

(** Modelled from the spec: the dispatcher.  An unrecognized access
    method ([None]) is fatal, and so is a kind outside the closed
    enumeration of a recognized one. *)
Definition handlerFor {C : XlogConsts} (am : option AccessMethod) (m : Mem)
  (record : XLogRecord) : LogRecord + ReplayError :=
  match am with
  | None => inr UnknownAccessMethod
  | Some a =>
      match rm_decode a m record with
      | Some r => inl r
      | None => inr UnknownKind
      end
  end.

(** Modelled from the spec: replay of the record at log position [pos]
    on its target page.  After dispatch the idempotency rule comes
    first: a page whose last-applied position is not older than the
    record's is skipped with no mutation and no error. *)
Definition replay {C : XlogConsts} (active : list Z)
  (am : option AccessMethod) (m : Mem) (record : XLogRecord) (pos : Z)
  (p : Page) : Outcome :=
  match handlerFor am m record with
  | inr e => Fatal e
  | inl r => if pos <=? page_lsn p then Done p else apply_record active r pos p
  end.

End Replay.

(** ** Sample records

    Concrete records, memories and pages on which the routines and the
    replay model are run below. *)

(** The payload of the insert-into-leaf scenario, little-endian. *)
Definition insert_leaf_payload : list Z :=
  [127; 6; 0; 0; 57; 48; 0; 0; 50; 9; 1; 0; 42; 0; 0; 0; 3; 0].

(** The insert-into-leaf record of the first scenario, in memory and
    decoded. *)
Definition insert_leaf_world : World :=
  {| heap := mem_of_bytes 1000 insert_leaf_payload; buf := "" |}.

Definition insert_leaf_record : XLogRecord :=
  {| xl_info := 0; xl_len := 18; xl_data := 1000 |}.

Definition insert_leaf_decoded : LogRecord :=
  BtreeInsert
    {| xl_btree_insert.target :=
         {| xl_btreetid.node :=
              {| RelFileNode.spcNode := 1663;
                 RelFileNode.dbNode := 12345;
                 RelFileNode.relNode := 67890 |};
            xl_btreetid.tid :=
              {| ItemPointerData.ip_blkid := 42;
                 ItemPointerData.ip_posid := 3 |} |} |}.

(** The payload of the split scenario: the locator (1663, 12345, 67890)
    followed by the five fields, little-endian. *)
Definition split_payload : list Z :=
  [127; 6; 0; 0; 57; 48; 0; 0; 50; 9; 1; 0;
   10; 0; 0; 0; 11; 0; 0; 0; 12; 0; 0; 0; 0; 0; 0; 0; 4; 0].

(** A split record over [split_payload], decoded, and two worlds that
    hold it: one with an empty buffer, one with text in the buffer and
    other bytes behind the record. *)
Definition split_record : XLogRecord :=
  {| xl_info := 48; xl_len := 30; xl_data := 1000 |}.

Definition split_decoded : LogRecord :=
  BtreeSplit
    {| xl_btree_split.node :=
         {| RelFileNode.spcNode := 1663;
            RelFileNode.dbNode := 12345;
            RelFileNode.relNode := 67890 |};
       xl_btree_split.leftsib := 10;
       xl_btree_split.rightsib := 11;
       xl_btree_split.rnext := 12;
       xl_btree_split.level := 0;
       xl_btree_split.firstright := 4 |}.

Definition split_world : World :=
  {| heap := mem_of_bytes 1000 split_payload; buf := "" |}.

Definition split_world_later : World :=
  {| heap := mem_of_bytes 1000 (split_payload ++ [9; 9; 9])%list;
     buf := "rel 1/2/3; tid 4/5" |}.

(** A record that declares four payload bytes although the arm for its
    kind dereferences eighteen. *)
Definition short_record : XLogRecord :=
  {| xl_info := 0; xl_len := 4; xl_data := 1000 |}.

(** A reuse-page record with removal horizon 10 on the relation
    (1663, 12345, 67890), and a page it can meet. *)
Definition reuse_payload : list Z :=
  [127; 6; 0; 0; 57; 48; 0; 0; 50; 9; 1; 0; 10; 0; 0; 0].


Definition unlinked_page (lsn : Z) : Replay.Page :=
  {| Replay.page_state := Replay.Unlinked;
     Replay.page_lsn := lsn;
     Replay.pending_topparent := Some 5;
     Replay.removal_horizon := Some 10 |}.

(** A record whose kind tag (224) is in neither enumeration. *)
Definition unknown_record : XLogRecord :=
  {| xl_info := 224; xl_len := 16; xl_data := 1000 |}.

(** ** aggregatecmds.c

    [DefineAggregate] checks a CREATE AGGREGATE command and hands it to
    the catalog.  Everything it calls lives outside the sources at hand,
    so the callees and the constants of the absent headers are
    parameters, gathered in [Env].  A callee is a function of its
    arguments that either returns or raises an error: the catalog and the
    session are not changed while the command is being checked, and
    [palloc] is taken to succeed. *)

Module aggregatecmds.

(** The SQLSTATE classes the function reports itself ([elog] reports an
    internal error); a callee may raise any other. *)
Inductive ErrCode : Type :=
  | ERRCODE_SYNTAX_ERROR
  | ERRCODE_INVALID_FUNCTION_DEFINITION
  | ERRCODE_INTERNAL_ERROR
  | ERRCODE_OTHER (sqlstate : Z).

(** One [ereport]: its code and its message. *)
Record Report : Type := { report_code : ErrCode; report_msg : string }.

(** What a callee answers. *)
Definition Result (A : Type) : Type := (A + Report)%type.

(** The ways a C execution leaves defined behaviour here. *)
Inductive Fault : Type :=
  | NullDeref
  | WrongNode
  | OutOfBounds.

(** How a run of the function ends: normally, in [ereport(ERROR)], or
    outside defined behaviour. *)
Inductive Outcome (A : Type) : Type :=
  | Ok (a : A)
  | Error (r : Report)
  | Undefined (f : Fault).

Arguments Ok {A} a.
Arguments Error {A} r.
Arguments Undefined {A} f.

(** A run also leaves the warnings it reported, oldest first. *)
Definition M (A : Type) : Type := (list Report * Outcome A)%type.

Definition ret {A : Type} (a : A) : M A := ([], Ok a).

Definition bind {A B : Type} (x : M A) (k : A -> M B) : M B :=
  match x with
  | (w, Ok a) => let (w', r) := k a in ((w ++ w')%list, r)
  | (w, Error r) => (w, Error r)
  | (w, Undefined f) => (w, Undefined f)
  end.

Definition ereport_ERROR {A : Type} (code : ErrCode) (msg : string) : M A :=
  ([], Error {| report_code := code; report_msg := msg |}).

Definition elog_ERROR {A : Type} (msg : string) : M A :=
  ereport_ERROR ERRCODE_INTERNAL_ERROR msg.

Definition ereport_WARNING (code : ErrCode) (msg : string) : M unit :=
  ([{| report_code := code; report_msg := msg |}], Ok tt).

Definition undefined {A : Type} (f : Fault) : M A := ([], Undefined f).

Definition call {A : Type} (r : Result A) : M A :=
  match r with
  | inl a => ret a
  | inr e => ([], Error e)
  end.

Declare Scope agg_scope.
Delimit Scope agg_scope with agg.
Notation "x <- e ;; k" := (bind e (fun x => k))
  (at level 61, e at next level, right associativity) : agg_scope.
Notation "e ;;; k" := (bind e (fun _ => k))
  (at level 61, right associativity) : agg_scope.

(** The double quote of the warning text. *)
Definition dquote : string := String (ascii_of_nat 34) EmptyString.

(** The arguments of the call to [AggregateCreate], in the order of the
    call.  The array of argument types is a pointer: [None] for [NULL],
    else its cells, a cell [None] as long as nothing was stored in it. *)
Record AggregateCreateArgs {NameItem : Type} : Type :=
  { cc_aggName : string;
    cc_aggNamespace : Z;
    cc_aggArgTypes : option (list (option Z));
    cc_numArgs : Z;
    cc_numOrderedArgs : Z;
    cc_transfuncName : list NameItem;
    cc_finalfuncName : list NameItem;
    cc_sortoperatorName : list NameItem;
    cc_transsortoperatorName : list NameItem;
    cc_transTypeId : Z;
    cc_initval : option string;
    cc_variadic_type : Z;
    cc_ord_variadic_type : Z;
    cc_isOrderedSet : bool;
    cc_ishypothetical : bool }.

Arguments AggregateCreateArgs NameItem : clear implicits.

(** The callees and constants of the absent headers. *)
Class Env : Type :=
  { TypeName : Type;
    DefElem : Type;
    NameItem : Type;
    defname : DefElem -> string;
    InvalidOid : Z;
    ANYOID : Z;
    ANYARRAYOID : Z;
    ANYELEMENTOID : Z;
    INTERNALOID : Z;
    TYPTYPE_PSEUDO : Z;
    ACLCHECK_OK : Z;
    ACL_CREATE : Z;
    ACL_KIND_NAMESPACE : Z;
    QualifiedNameGetCreationNamespace : list NameItem -> Result (Z * string);
    GetUserId : Z;
    pg_namespace_aclcheck : Z -> Z -> Z -> Z;
    get_namespace_name : Z -> string;
    aclcheck_error : Z -> Z -> string -> Result unit;
    pg_strcasecmp : string -> string -> Z;
    defGetQualifiedName : DefElem -> Result (list NameItem);
    defGetTypeName : DefElem -> Result (option TypeName);
    defGetString : DefElem -> Result (option string);
    TypeNameToString : TypeName -> string;
    typenameTypeId : TypeName -> Result Z;
    get_element_type : Z -> Z;
    get_typtype : Z -> Z;
    IsPolymorphicType : Z -> bool;
    superuser : bool;
    format_type_be : Z -> string;
    getTypeInputInfo : Z -> Result (Z * Z);
    OidInputFunctionCall : Z -> string -> Z -> Z -> Result unit;
    AggregateCreate : AggregateCreateArgs NameItem -> Result Z }.

Section WithEnv.

Context {E : Env}.

Local Open Scope agg_scope.

(** *** Parse nodes

    What a list cell can point to, as far as the function looks: a
    [List], a [TypeName], a [DefElem], or some other node.  A pointer is
    [None] when it is [NULL]; [NIL] is the [NULL] list. *)
#[local] Unset Elimination Schemes.
Inductive Node : Type :=
  | T_List (cells : list (option Node))
  | T_TypeName (t : TypeName)
  | T_DefElem (d : DefElem)
  | T_Other.
#[local] Set Elimination Schemes.

Definition Ptr : Type := option Node.

Definition OidIsValid (objectId : Z) : bool := negb (objectId =? InvalidOid).

(** The cells of a [List *]. *)
Definition cells_of (l : Ptr) : M (list Ptr) :=
  match l with
  | None => ret []
  | Some (T_List cells) => ret cells
  | Some _ => undefined WrongNode
  end.

Definition list_length (l : Ptr) : M Z :=
  cells <- cells_of l ;; ret (Z.of_nat (List.length cells)).

(** [linitial] and [lsecond] dereference the cell they reach. *)
Definition linitial (l : Ptr) : M Ptr :=
  cells <- cells_of l ;;
  match cells with
  | first :: _ => ret first
  | [] => undefined NullDeref
  end.

Definition lsecond (l : Ptr) : M Ptr :=
  cells <- cells_of l ;;
  match cells with
  | _ :: second :: _ => ret second
  | _ => undefined NullDeref
  end.

(** [IsA(p, List)] reads the tag of the node [p] points to. *)
Definition IsA_List (p : Ptr) : M bool :=
  match p with
  | None => undefined NullDeref
  | Some (T_List _) => ret true
  | Some _ => ret false
  end.

(** A pointer used as a [TypeName *] or a [DefElem *]. *)
Definition as_TypeName (p : Ptr) : M TypeName :=
  match p with
  | None => undefined NullDeref
  | Some (T_TypeName t) => ret t
  | Some _ => undefined WrongNode
  end.

Definition as_DefElem (p : Ptr) : M DefElem :=
  match p with
  | None => undefined NullDeref
  | Some (T_DefElem d) => ret d
  | Some _ => undefined WrongNode
  end.

(** *** The array of argument types *)

Definition palloc_Oids (n : Z) : option (list (option Z)) :=
  Some (repeat None (Z.to_nat n)).

(** [aggArgTypes[i] = v]. *)
Definition store (a : option (list (option Z))) (i : nat) (v : Z)
  : M (option (list (option Z))) :=
  match a with
  | None => undefined NullDeref
  | Some cells =>
      if (i <? List.length cells)%nat
      then ret (Some (firstn i cells ++ Some v :: skipn (S i) cells)%list)
      else undefined OutOfBounds
  end.

(** *** The locals the option loop sets *)

Record Options : Type :=
  { transfuncName : list NameItem;
    finalfuncName : list NameItem;
    sortoperatorName : list NameItem;
    transsortoperatorName : list NameItem;
    baseType : option TypeName;
    transType : option TypeName;
    initval : option string;
    ishypothetical : bool }.

Definition initial_options : Options :=
  {| transfuncName := [];
     finalfuncName := [];
     sortoperatorName := [];
     transsortoperatorName := [];
     baseType := None;
     transType := None;
     initval := None;
     ishypothetical := false |}.

Definition named (defel : DefElem) (key : string) : bool :=
  pg_strcasecmp (defname defel) key =? 0.

(** The body of [foreach(pl, parameters)]. *)
Definition scan_DefElem (o : Options) (defel : DefElem) : M Options :=
  if named defel "sfunc" then
    v <- call (defGetQualifiedName defel) ;;
    ret {| transfuncName := v;
           finalfuncName := finalfuncName o;
           sortoperatorName := sortoperatorName o;
           transsortoperatorName := transsortoperatorName o;
           baseType := baseType o; transType := transType o;
           initval := initval o; ishypothetical := ishypothetical o |}
  else if named defel "sfunc1" then
    v <- call (defGetQualifiedName defel) ;;
    ret {| transfuncName := v;
           finalfuncName := finalfuncName o;
           sortoperatorName := sortoperatorName o;
           transsortoperatorName := transsortoperatorName o;
           baseType := baseType o; transType := transType o;
           initval := initval o; ishypothetical := ishypothetical o |}
  else if named defel "finalfunc" then
    v <- call (defGetQualifiedName defel) ;;
    ret {| transfuncName := transfuncName o;
           finalfuncName := v;
           sortoperatorName := sortoperatorName o;
           transsortoperatorName := transsortoperatorName o;
           baseType := baseType o; transType := transType o;
           initval := initval o; ishypothetical := ishypothetical o |}
  else if named defel "sortop" then
    v <- call (defGetQualifiedName defel) ;;
    ret {| transfuncName := transfuncName o;
           finalfuncName := finalfuncName o;
           sortoperatorName := v;
           transsortoperatorName := transsortoperatorName o;
           baseType := baseType o; transType := transType o;
           initval := initval o; ishypothetical := ishypothetical o |}
  else if named defel "basetype" then
    v <- call (defGetTypeName defel) ;;
    ret {| transfuncName := transfuncName o;
           finalfuncName := finalfuncName o;
           sortoperatorName := sortoperatorName o;
           transsortoperatorName := transsortoperatorName o;
           baseType := v; transType := transType o;
           initval := initval o; ishypothetical := ishypothetical o |}
  else if named defel "stype" then
    v <- call (defGetTypeName defel) ;;
    ret {| transfuncName := transfuncName o;
           finalfuncName := finalfuncName o;
           sortoperatorName := sortoperatorName o;
           transsortoperatorName := transsortoperatorName o;
           baseType := baseType o; transType := v;
           initval := initval o; ishypothetical := ishypothetical o |}
  else if named defel "stype1" then
    v <- call (defGetTypeName defel) ;;
    ret {| transfuncName := transfuncName o;
           finalfuncName := finalfuncName o;
           sortoperatorName := sortoperatorName o;
           transsortoperatorName := transsortoperatorName o;
           baseType := baseType o; transType := v;
           initval := initval o; ishypothetical := ishypothetical o |}
  else if named defel "initcond" then
    v <- call (defGetString defel) ;;
    ret {| transfuncName := transfuncName o;
           finalfuncName := finalfuncName o;
           sortoperatorName := sortoperatorName o;
           transsortoperatorName := transsortoperatorName o;
           baseType := baseType o; transType := transType o;
           initval := v; ishypothetical := ishypothetical o |}
  else if named defel "initcond1" then
    v <- call (defGetString defel) ;;
    ret {| transfuncName := transfuncName o;
           finalfuncName := finalfuncName o;
           sortoperatorName := sortoperatorName o;
           transsortoperatorName := transsortoperatorName o;
           baseType := baseType o; transType := transType o;
           initval := v; ishypothetical := ishypothetical o |}
  else if named defel "hypothetical" then
    ret {| transfuncName := transfuncName o;
           finalfuncName := finalfuncName o;
           sortoperatorName := sortoperatorName o;
           transsortoperatorName := transsortoperatorName o;
           baseType := baseType o; transType := transType o;
           initval := initval o; ishypothetical := true |}
  else if named defel "transsortop" then
    v <- call (defGetQualifiedName defel) ;;
    ret {| transfuncName := transfuncName o;
           finalfuncName := finalfuncName o;
           sortoperatorName := sortoperatorName o;
           transsortoperatorName := v;
           baseType := baseType o; transType := transType o;
           initval := initval o; ishypothetical := ishypothetical o |}
  else
    ereport_WARNING ERRCODE_SYNTAX_ERROR
      ("aggregate attribute " ++ dquote ++ defname defel ++ dquote
       ++ " not recognized") ;;;
    ret o.

Fixpoint scan_parameters (o : Options) (cells : list Ptr) : M Options :=
  match cells with
  | [] => ret o
  | cell :: rest =>
      defel <- as_DefElem cell ;;
      o' <- scan_DefElem o defel ;;
      scan_parameters o' rest
  end.

(** *** The locals the argument loops set *)

Record ArgState : Type :=
  { aggArgTypes : option (list (option Z));
    next_index : nat;
    variadic_type : Z;
    ord_variadic_type : Z }.

(** The body of [foreach(lc, linitial(args))]. *)
Definition scan_direct_arg (st : ArgState) (cell : Ptr) : M ArgState :=
  is_list <- IsA_List cell ;;
  if is_list then
    first <- linitial cell ;;
    curTypeName <- as_TypeName first ;;
    typ <- call (typenameTypeId curTypeName) ;;
    vt <- (if typ =? ANYOID then ret ANYOID
           else if typ =? ANYARRAYOID then ret ANYELEMENTOID
           else if negb (OidIsValid (get_element_type typ))
                then elog_ERROR "variadic parameter is not an array"
                else ret typ) ;;
    a <- store (aggArgTypes st) (next_index st) vt ;;
    ret {| aggArgTypes := a;
           next_index := S (next_index st);
           variadic_type := vt;
           ord_variadic_type := ord_variadic_type st |}
  else
    curTypeName <- as_TypeName cell ;;
    typ <- call (typenameTypeId curTypeName) ;;
    a <- store (aggArgTypes st) (next_index st) typ ;;
    ret {| aggArgTypes := a;
           next_index := S (next_index st);
           variadic_type := variadic_type st;
           ord_variadic_type := ord_variadic_type st |}.

Fixpoint scan_direct_args (st : ArgState) (cells : list Ptr) : M ArgState :=
  match cells with
  | [] => ret st
  | cell :: rest =>
      st' <- scan_direct_arg st cell ;;
      scan_direct_args st' rest
  end.

(** The body of [foreach(lc, lsecond(args))]. *)
Definition scan_ordered_arg (st : ArgState) (cell : Ptr) : M ArgState :=
  is_list <- IsA_List cell ;;
  if is_list then
    inner <- linitial cell ;;
    first <- linitial inner ;;
    curTypeName <- as_TypeName first ;;
    typ <- call (typenameTypeId curTypeName) ;;
    (if negb (typ =? ANYOID)
     then if negb (OidIsValid (get_element_type typ))
          then elog_ERROR "variadic parameter is not an array"
          else ret tt
     else ret tt) ;;;
    a <- store (aggArgTypes st) (next_index st) typ ;;
    ret {| aggArgTypes := a;
           next_index := S (next_index st);
           variadic_type := variadic_type st;
           ord_variadic_type := typ |}
  else
    curTypeName <- as_TypeName cell ;;
    typ <- call (typenameTypeId curTypeName) ;;
    a <- store (aggArgTypes st) (next_index st) typ ;;
    ret {| aggArgTypes := a;
           next_index := S (next_index st);
           variadic_type := variadic_type st;
           ord_variadic_type := ord_variadic_type st |}.

Fixpoint scan_ordered_args (st : ArgState) (cells : list Ptr) : M ArgState :=
  match cells with
  | [] => ret st
  | cell :: rest =>
      st' <- scan_ordered_arg st cell ;;
      scan_ordered_args st' rest
  end.

(** The checks on the ordered arguments of a variadic ordered-set
    aggregate, made before the second loop. *)
Definition check_variadic_ordered (args : Ptr) (vt : Z) : M unit :=
  if negb (vt =? InvalidOid) then
    ordered <- lsecond args ;;
    first <- linitial ordered ;;
    is_list <- IsA_List first ;;
    (if negb is_list
     then ereport_ERROR ERRCODE_INVALID_FUNCTION_DEFINITION
            "Ordered arguments must be variadic"
     else ret tt) ;;;
    ordered' <- lsecond args ;;
    n <- list_length ordered' ;;
    (if negb (n =? 1)
     then ereport_ERROR ERRCODE_INVALID_FUNCTION_DEFINITION
            "Invalid ordered arguments for variadic"
     else ret tt) ;;;
    if negb (vt =? ANYOID)
    then if negb (OidIsValid (get_element_type vt))
         then elog_ERROR "variadic parameter is not an array"
         else ret tt
    else ret tt
  else ret tt.

(** The numbers of arguments together with the loop state. *)
Record ArgResult : Type :=
  { res_numArgs : Z; res_numOrderedArgs : Z; res_state : ArgState }.

(** The block "look up the aggregate's input datatype(s)". *)
Definition input_datatypes (args : Ptr) (oldstyle isOrderedSet : bool)
  (o : Options) : M ArgResult :=
  if oldstyle then
    match baseType o with
    | None =>
        ereport_ERROR ERRCODE_INVALID_FUNCTION_DEFINITION
          "aggregate input type must be specified"
    | Some bt =>
        if pg_strcasecmp (TypeNameToString bt) "ANY" =? 0 then
          ret {| res_numArgs := 0;
                 res_numOrderedArgs := 0;
                 res_state := {| aggArgTypes := None;
                                 next_index := 0;
                                 variadic_type := InvalidOid;
                                 ord_variadic_type := InvalidOid |} |}
        else
          typ <- call (typenameTypeId bt) ;;
          a <- store (palloc_Oids 1) 0 typ ;;
          ret {| res_numArgs := 1;
                 res_numOrderedArgs := 0;
                 res_state := {| aggArgTypes := a;
                                 next_index := 0;
                                 variadic_type := InvalidOid;
                                 ord_variadic_type := InvalidOid |} |}
    end
  else
    (match baseType o with
     | Some _ =>
         ereport_ERROR ERRCODE_INVALID_FUNCTION_DEFINITION
           "basetype is redundant with aggregate input type specification"
     | None => ret tt
     end) ;;;
    direct <- linitial args ;;
    numArgs <- list_length direct ;;
    sized <- (if isOrderedSet then
                direct' <- linitial args ;;
                n1 <- list_length direct' ;;
                ordered <- lsecond args ;;
                n2 <- list_length ordered ;;
                let totalnumArgs := n1 + n2 in
                ordered' <- lsecond args ;;
                numOrderedArgs <- list_length ordered' ;;
                ret (palloc_Oids totalnumArgs, numOrderedArgs)
              else ret (palloc_Oids numArgs, 0)) ;;
    direct'' <- linitial args ;;
    cells <- cells_of direct'' ;;
    st <- scan_direct_args {| aggArgTypes := fst sized;
                              next_index := 0;
                              variadic_type := InvalidOid;
                              ord_variadic_type := InvalidOid |} cells ;;
    st' <- (if isOrderedSet then
              check_variadic_ordered args (variadic_type st) ;;;
              ordered <- lsecond args ;;
              ocells <- cells_of ordered ;;
              scan_ordered_args st ocells
            else ret st) ;;
    ret {| res_numArgs := numArgs;
           res_numOrderedArgs := snd sized;
           res_state := st' |}.

(** The block "look up the aggregate's transtype": the transition type
    id and its typtype, once [stype] was given. *)
Definition transition_type (isOrderedSet : bool) (o : Options)
  : M (Z * option Z) :=
  match transType o with
  | Some tt_ =>
      transTypeId <- call (typenameTypeId tt_) ;;
      let transTypeType := get_typtype transTypeId in
      (if (transTypeType =? TYPTYPE_PSEUDO)
          && negb (IsPolymorphicType transTypeId)
       then
         if negb isOrderedSet then
           if (transTypeId =? INTERNALOID) && superuser then ret tt
           else ereport_ERROR ERRCODE_INVALID_FUNCTION_DEFINITION
                  ("aggregate transition data type cannot be "
                   ++ format_type_be transTypeId)
         else
           if (transTypeId =? INTERNALOID) && superuser
           then ereport_ERROR ERRCODE_INVALID_FUNCTION_DEFINITION
                  "aggregate transition data type cannot be INTERNALOID for ordered set functions"
           else ret tt
       else ret tt) ;;;
      ret (transTypeId, Some transTypeType)
  | None => ret (InvalidOid, None)
  end.

(** The check of the initial value against the input function of the
    transition type. *)
Definition check_initval (o : Options) (transTypeId : Z)
  (transTypeType : option Z) : M unit :=
  match transType o, transTypeType with
  | Some _, Some typtype =>
      match initval o with
      | Some iv =>
          if negb (typtype =? TYPTYPE_PSEUDO) then
            info <- call (getTypeInputInfo transTypeId) ;;
            call (OidInputFunctionCall (fst info) iv (snd info) (-1))
          else ret tt
      | None => ret tt
      end
  | _, _ => ret tt
  end.

(** [DefineAggregate] up to its last statement: the arguments it hands
    to [AggregateCreate]. *)
Definition DefineAggregate_call (name : list NameItem) (args : Ptr)
  (oldstyle : bool) (parameters : Ptr) : M (AggregateCreateArgs NameItem) :=
  ns <- call (QualifiedNameGetCreationNamespace name) ;;
  let aggNamespace := fst ns in
  let aggName := snd ns in
  let aclresult := pg_namespace_aclcheck aggNamespace GetUserId ACL_CREATE in
  (if negb (aclresult =? ACLCHECK_OK)
   then call (aclcheck_error aclresult ACL_KIND_NAMESPACE
                (get_namespace_name aggNamespace))
   else ret tt) ;;;
  n <- list_length args ;;
  isOrderedSet <- (if 1 <? n then
                     second <- lsecond args ;;
                     match second with
                     | Some _ => ret true
                     | None => ret false
                     end
                   else ret false) ;;
  pcells <- cells_of parameters ;;
  o <- scan_parameters initial_options pcells ;;
  (if negb isOrderedSet then
     match transType o with
     | None =>
         ereport_ERROR ERRCODE_INVALID_FUNCTION_DEFINITION
           "aggregate stype must be specified"
     | Some _ =>
         match transfuncName o with
         | [] =>
             ereport_ERROR ERRCODE_INVALID_FUNCTION_DEFINITION
               "aggregate sfunc must be specified"
         | _ :: _ => ret tt
         end
     end
   else ret tt) ;;;
  ar <- input_datatypes args oldstyle isOrderedSet o ;;
  tt_ <- transition_type isOrderedSet o ;;
  check_initval o (fst tt_) (snd tt_) ;;;
  ret {| cc_aggName := aggName;
         cc_aggNamespace := aggNamespace;
         cc_aggArgTypes := aggArgTypes (res_state ar);
         cc_numArgs := res_numArgs ar;
         cc_numOrderedArgs := res_numOrderedArgs ar;
         cc_transfuncName := transfuncName o;
         cc_finalfuncName := finalfuncName o;
         cc_sortoperatorName := sortoperatorName o;
         cc_transsortoperatorName := transsortoperatorName o;
         cc_transTypeId := fst tt_;
         cc_initval := initval o;
         cc_variadic_type := variadic_type (res_state ar);
         cc_ord_variadic_type := ord_variadic_type (res_state ar);
         cc_isOrderedSet := isOrderedSet;
         cc_ishypothetical := ishypothetical o |}.

Definition DefineAggregate (name : list NameItem) (args : Ptr)
  (oldstyle : bool) (parameters : Ptr) : M Z :=
  a <- DefineAggregate_call name args oldstyle parameters ;;
  call (AggregateCreate a).

End WithEnv.

(** *** Notions for the results on [DefineAggregate] *)

(** A run that stores nowhere outside the array. *)
Definition no_oob {A : Type} (x : M A) : Prop :=
  snd x <> Undefined OutOfBounds.

(** [post P x]: the run [x] stores nowhere outside the array, and when
    it ends normally its value satisfies [P]. *)
Definition post {A : Type} (P : A -> Prop) (x : M A) : Prop :=
  no_oob x /\ forall w a, x = (w, Ok a) -> P a.

(** The array while the loops run: [ws] already stored, [k] cells to go. *)
Definition filling {E : Env} (st : ArgState) (ws : list Z) (k : nat)
  : Prop :=
  aggArgTypes st = Some (map Some ws ++ repeat None k)%list
  /\ next_index st = List.length ws.

(** The variadic types the loops let through: none, [ANYOID],
    [ANYELEMENTOID] in place of [ANYARRAYOID] (direct arguments only), or
    a type that has an element type. *)
Definition variadic_ok {E : Env} (v : Z) : Prop :=
  v = InvalidOid \/ v = ANYOID \/ v = ANYELEMENTOID
  \/ OidIsValid (get_element_type v) = true.

Definition ord_variadic_ok {E : Env} (v : Z) : Prop :=
  v = InvalidOid \/ v = ANYOID \/ OidIsValid (get_element_type v) = true.

(** The cells of a list node; none for anything else. *)
Definition list_cells {E : Env} (p : Ptr) : list Ptr :=
  match p with
  | Some (T_List cells) => cells
  | _ => []
  end.

(** The type a [TypeName] node resolves to. *)
Definition resolved {E : Env} (p : Ptr) : option Z :=
  match p with
  | Some (T_TypeName t) =>
      match typenameTypeId t with
      | inl typ => Some typ
      | inr _ => None
      end
  | _ => None
  end.

(** The type a direct argument stands for.  A plain argument is a type
    name and stands for the type it resolves to; a variadic one is a
    list headed by the type name and stands for that type, with
    [ANYELEMENTOID] for [ANYARRAYOID]. *)
Definition direct_type {E : Env} (cell : Ptr) : option Z :=
  match cell with
  | Some (T_List cells) =>
      match resolved (hd None cells) with
      | Some typ =>
          Some (if typ =? ANYOID then ANYOID
                else if typ =? ANYARRAYOID then ANYELEMENTOID
                else typ)
      | None => None
      end
  | _ => resolved cell
  end.

(** The type an ordered argument stands for: a variadic one is a list
    whose head is a list headed by the type name. *)
Definition ordered_type {E : Env} (cell : Ptr) : option Z :=
  match cell with
  | Some (T_List cells) => resolved (hd None (list_cells (hd None cells)))
  | _ => resolved cell
  end.

(** The direct arguments of a command and, for an ordered-set
    aggregate, the ordered ones. *)
Definition direct_arguments {E : Env} (args : Ptr) : list Ptr :=
  list_cells (hd None (list_cells args)).

Definition ordered_arguments {E : Env} (isOrderedSet : bool) (args : Ptr)
  : list Ptr :=
  if isOrderedSet then list_cells (nth 1 (list_cells args) None) else [].

(** What [input_datatypes] leaves.  Old style: no array and no
    arguments, or the one type the [basetype] attribute resolves to.
    Otherwise an array that holds, cell by cell, the types the direct
    arguments stand for, followed by those of the ordered arguments, as
    many as the two counts say. *)
Definition types_stored {E : Env} (args : Ptr)
  (oldstyle isOrderedSet : bool) (o : Options) (ar : ArgResult) : Prop :=
  (if oldstyle then
     (aggArgTypes (res_state ar) = None
      /\ res_numArgs ar = 0 /\ res_numOrderedArgs ar = 0)
     \/ (exists (bt : TypeName) (typ : Z),
           baseType o = Some bt
           /\ typenameTypeId bt = inl typ
           /\ aggArgTypes (res_state ar) = Some [Some typ]
           /\ res_numArgs ar = 1 /\ res_numOrderedArgs ar = 0)
   else
     exists direct ordered : list Z,
       map direct_type (direct_arguments args) = map Some direct
       /\ map ordered_type (ordered_arguments isOrderedSet args)
          = map Some ordered
       /\ aggArgTypes (res_state ar) = Some (map Some (direct ++ ordered))
       /\ res_numArgs ar = Z.of_nat (List.length direct)
       /\ res_numOrderedArgs ar = Z.of_nat (List.length ordered))
  /\ variadic_ok (variadic_type (res_state ar))
  /\ ord_variadic_ok (ord_variadic_type (res_state ar))
  /\ (isOrderedSet = true -> ord_variadic_ok (variadic_type (res_state ar))).

(** What [transition_type] leaves when [stype] was given. *)
Definition transition_checked {E : Env} (isOrderedSet : bool) (o : Options)
  (r : Z * option Z) : Prop :=
  match transType o with
  | Some t =>
      typenameTypeId t = inl (fst r)
      /\ snd r = Some (get_typtype (fst r))
      /\ (isOrderedSet = false ->
          get_typtype (fst r) = TYPTYPE_PSEUDO ->
          IsPolymorphicType (fst r) = false ->
          fst r = INTERNALOID /\ superuser = true)
  | None => r = (InvalidOid, None)
  end.

(** What [check_initval] has made sure of. *)
Definition initval_checked {E : Env} (o : Options) (transTypeId : Z)
  : Prop :=
  forall t iv,
    transType o = Some t -> initval o = Some iv ->
    get_typtype transTypeId <> TYPTYPE_PSEUDO ->
    exists info,
      getTypeInputInfo transTypeId = inl info
      /\ OidInputFunctionCall (fst info) iv (snd info) (-1) = inl tt.

(** The array handed to [AggregateCreate].  Old style: [NULL] with both
    counts zero, or the one type a type name resolved to.  Otherwise it
    holds, cell by cell and in order, the type each direct argument of
    the command stands for, followed by the type of each ordered
    argument (there are none unless the aggregate is an ordered-set
    aggregate); [numArgs] and [numOrderedArgs] count them. *)
Definition types_filled {E : Env} (args : Ptr) (oldstyle : bool)
  (a : AggregateCreateArgs NameItem) : Prop :=
  if oldstyle then
    (cc_aggArgTypes a = None /\ cc_numArgs a = 0 /\ cc_numOrderedArgs a = 0)
    \/ (exists (bt : TypeName) (typ : Z),
          typenameTypeId bt = inl typ
          /\ cc_aggArgTypes a = Some [Some typ]
          /\ cc_numArgs a = 1 /\ cc_numOrderedArgs a = 0)
  else
    exists direct ordered : list Z,
      map direct_type (direct_arguments args) = map Some direct
      /\ map ordered_type (ordered_arguments (cc_isOrderedSet a) args)
         = map Some ordered
      /\ cc_aggArgTypes a = Some (map Some (direct ++ ordered))
      /\ cc_numArgs a = Z.of_nat (List.length direct)
      /\ cc_numOrderedArgs a = Z.of_nat (List.length ordered).

(** What was checked of an aggregate that is no ordered-set aggregate. *)
Definition plain_requirements {E : Env} (a : AggregateCreateArgs NameItem)
  : Prop :=
  cc_isOrderedSet a = false ->
  cc_transfuncName a <> []
  /\ (exists t, typenameTypeId t = inl (cc_transTypeId a))
  /\ (get_typtype (cc_transTypeId a) = TYPTYPE_PSEUDO ->
      IsPolymorphicType (cc_transTypeId a) = false ->
      cc_transTypeId a = INTERNALOID /\ superuser = true)
  /\ (forall iv, cc_initval a = Some iv ->
        get_typtype (cc_transTypeId a) <> TYPTYPE_PSEUDO ->
        exists info,
          getTypeInputInfo (cc_transTypeId a) = inl info
          /\ OidInputFunctionCall (fst info) iv (snd info) (-1) = inl tt).

(** The variadic types handed to [AggregateCreate] have passed the
    checks of the loops; for an ordered-set aggregate the one of the
    direct arguments has also passed the check made between the loops. *)
Definition variadic_types_checked {E : Env}
  (a : AggregateCreateArgs NameItem) : Prop :=
  variadic_ok (cc_variadic_type a)
  /\ ord_variadic_ok (cc_ord_variadic_type a)
  /\ (cc_isOrderedSet a = true -> ord_variadic_ok (cc_variadic_type a)).

(** The attribute names the option loop knows. *)
Definition attribute_keys : list string :=
  ["sfunc"; "sfunc1"; "finalfunc"; "sortop"; "basetype"; "stype"; "stype1";
   "initcond"; "initcond1"; "hypothetical"; "transsortop"].

Definition unrecognized {E : Env} (defel : DefElem) : Prop :=
  forall key, In key attribute_keys -> named defel key = false.

(** *** A sample environment

    Type names are their own type ids, an attribute is its name with a
    type id, names are compared exactly, and every callee succeeds; the
    one array type is 1007, with elements of type 23. *)
Definition sample_env : Env :=
  {| TypeName := Z;
     DefElem := string * Z;
     NameItem := string;
     defname := fst;
     InvalidOid := 0;
     ANYOID := 2276;
     ANYARRAYOID := 2277;
     ANYELEMENTOID := 2283;
     INTERNALOID := 2281;
     TYPTYPE_PSEUDO := 112;
     ACLCHECK_OK := 0;
     ACL_CREATE := 512;
     ACL_KIND_NAMESPACE := 9;
     QualifiedNameGetCreationNamespace := fun _ => inl (2200, "myagg");
     GetUserId := 10;
     pg_namespace_aclcheck := fun _ _ _ => 0;
     get_namespace_name := fun _ => "public";
     aclcheck_error := fun _ _ _ =>
       inr {| report_code := ERRCODE_OTHER 42501;
              report_msg := "permission denied" |};
     pg_strcasecmp := fun a b => if String.eqb a b then 0 else 1;
     defGetQualifiedName := fun d => inl [fst d];
     defGetTypeName := fun d => inl (Some (snd d));
     defGetString := fun d => inl (Some "0");
     TypeNameToString := fun _ => "int4";
     typenameTypeId := fun t => inl t;
     get_element_type := fun t => if t =? 1007 then 23 else 0;
     get_typtype := fun _ => 98;
     IsPolymorphicType := fun _ => false;
     superuser := false;
     format_type_be := fun _ => "integer";
     getTypeInputInfo := fun t => inl (42, t);
     OidInputFunctionCall := fun _ _ _ _ => inl tt;
     AggregateCreate := fun _ => inl 16384 |}.

(** CREATE AGGREGATE myagg(int4) (sfunc = ..., stype = int4). *)
Definition sample_args : @Ptr sample_env :=
  Some (T_List [Some (T_List [Some (T_TypeName (23 : @TypeName sample_env))])]).

Definition sample_parameters : @Ptr sample_env :=
  Some (T_List [Some (T_DefElem (("sfunc", 0) : @DefElem sample_env));
                Some (T_DefElem (("stype", 23) : @DefElem sample_env))]).

(** CREATE AGGREGATE myset(int4, VARIADIC int4[] ORDER BY VARIADIC int4[])
    (sfunc = ..., stype = int4): two direct arguments, the second
    variadic, and one variadic ordered argument. *)
Definition sample_ordered_args : @Ptr sample_env :=
  Some (T_List
          [Some (T_List
                   [Some (T_TypeName (23 : @TypeName sample_env));
                    Some (T_List
                            [Some (T_TypeName (1007 : @TypeName sample_env))])]);
           Some (T_List
                   [Some (T_List
                            [Some (T_List
                                     [Some (T_TypeName
                                              (1007 : @TypeName sample_env))])])])]).

End aggregatecmds.

(** ** Notions used by the further results *)

(** The decimal digits. *)
Definition is_digit (c : ascii) : bool :=
  match c with
  | "0" | "1" | "2" | "3" | "4" | "5" | "6" | "7" | "8" | "9" => true
  | _ => false
  end%char.

(** Every character of [s] satisfies [p]. *)
Fixpoint string_forall (p : ascii -> bool) (s : string) : bool :=
  match s with
  | EmptyString => true
  | String c s' => p c && string_forall p s'
  end.

(** [s] is empty or starts with a character that is no digit. *)
Definition no_digit_head (s : string) : bool :=
  match s with
  | EmptyString => true
  | String c _ => negb (is_digit c)
  end.

(** A visible ASCII character or a blank: code 32 to 126. *)
Definition printable (c : ascii) : bool :=
  (32 <=? Z.of_nat (nat_of_ascii c)) && (Z.of_nat (nat_of_ascii c) <=? 126).

(** The values a 32-bit and a 16-bit unsigned field can hold. *)
Definition is_u32 (z : Z) : Prop := 0 <= z < 4294967296.
Definition is_u16 (z : Z) : Prop := 0 <= z < 65536.

Definition node_in_range (n : RelFileNode.t) : Prop :=
  is_u32 (RelFileNode.spcNode n) /\ is_u32 (RelFileNode.dbNode n)
  /\ is_u32 (RelFileNode.relNode n).

Definition tid_in_range (p : ItemPointerData.t) : Prop :=
  is_u32 (ItemPointerData.ip_blkid p) /\ is_u16 (ItemPointerData.ip_posid p).

(** Every field of a decoded header lies in the range of its C type. *)
Definition fields_in_range (r : LogRecord) : Prop :=
  match r with
  | BtreeInsert x =>
      node_in_range (xl_btreetid.node (xl_btree_insert.target x))
      /\ tid_in_range (xl_btreetid.tid (xl_btree_insert.target x))
  | BtreeSplit x =>
      node_in_range (xl_btree_split.node x)
      /\ is_u32 (xl_btree_split.leftsib x)
      /\ is_u32 (xl_btree_split.rightsib x)
      /\ is_u32 (xl_btree_split.rnext x)
      /\ is_u32 (xl_btree_split.level x)
      /\ is_u16 (xl_btree_split.firstright x)
  | BtreeVacuum x =>
      node_in_range (xl_btree_vacuum.node x)
      /\ is_u32 (xl_btree_vacuum.block x)
      /\ is_u32 (xl_btree_vacuum.lastBlockVacuumed x)
  | BtreeDelete x =>
      node_in_range (xl_btree_delete.node x)
      /\ is_u32 (xl_btree_delete.block x)
      /\ node_in_range (xl_btree_delete.hnode x)
  | BtreeMarkPageHalfdead x =>
      node_in_range (xl_btreetid.node (xl_btree_mark_page_halfdead.target x))
      /\ tid_in_range
           (xl_btreetid.tid (xl_btree_mark_page_halfdead.target x))
      /\ is_u32 (xl_btree_mark_page_halfdead.topparent x)
      /\ is_u32 (xl_btree_mark_page_halfdead.leafblk x)
      /\ is_u32 (xl_btree_mark_page_halfdead.leftblk x)
      /\ is_u32 (xl_btree_mark_page_halfdead.rightblk x)
  | BtreeUnlinkPage x =>
      node_in_range (xl_btree_unlink_page.node x)
      /\ is_u32 (xl_btree_unlink_page.deadblk x)
      /\ is_u32 (xl_btree_unlink_page.leftsib x)
      /\ is_u32 (xl_btree_unlink_page.rightsib x)
      /\ is_u32 (xl_btree_unlink_page.btpo_xact x)
      /\ is_u32 (xl_btree_unlink_page.leafblk x)
      /\ is_u32 (xl_btree_unlink_page.leafleftsib x)
      /\ is_u32 (xl_btree_unlink_page.leafrightsib x)
      /\ is_u32 (xl_btree_unlink_page.topparent x)
  | BtreeNewroot x =>
      node_in_range (xl_btree_newroot.node x)
      /\ is_u32 (xl_btree_newroot.rootblk x)
      /\ is_u32 (xl_btree_newroot.level x)
  | BtreeReusePage x =>
      node_in_range (xl_btree_reuse_page.node x)
      /\ is_u32 (xl_btree_reuse_page.latestRemovedXid x)
  | GistPageUpdate x =>
      node_in_range (gistxlogPageUpdate.node x)
      /\ is_u32 (gistxlogPageUpdate.blkno x)
  | GistPageSplit x =>
      node_in_range (gistxlogPageSplit.node x)
      /\ is_u32 (gistxlogPageSplit.origblkno x)
      /\ is_u16 (gistxlogPageSplit.npage x)
  | GistCreateIndex x => node_in_range x
  end.

(** The names the identify routines hand out, in the order of their
    case labels. *)
Definition btree_names : list string :=
  ["INSERT_LEAF"; "INSERT_UPPER"; "INSERT_META"; "SPLIT_L"; "SPLIT_R";
   "SPLIT_L_ROOT"; "SPLIT_R_ROOT"; "VACUUM"; "DELETE"; "MARK_PAGE_HALFDEAD";
   "UNLINK_PAGE"; "UNLINK_PAGE_META"; "NEWROOT"; "REUSE_PAGE"].

Definition gist_names : list string :=
  ["PAGE_UPDATE"; "PAGE_SPLIT"; "CREATE_INDEX"].

Definition rm_names (am : AccessMethod) : list string :=
  match am with Btree => btree_names | Gist => gist_names end.

(** First-match lookup in a table of labels and names. *)
Fixpoint lookup_name (table : list (Z * string)) (info : Z)
  : option string :=
  match table with
  | [] => None
  | (label, name) :: rest =>
      if info =? label then Some name else lookup_name rest info
  end.

(** The case labels of [btree_desc] that share one arm. *)
Definition btree_shared_arms {C : XlogConsts} : list (list Z) :=
  [[XLOG_BTREE_INSERT_LEAF; XLOG_BTREE_INSERT_UPPER; XLOG_BTREE_INSERT_META];
   [XLOG_BTREE_SPLIT_L; XLOG_BTREE_SPLIT_R; XLOG_BTREE_SPLIT_L_ROOT;
    XLOG_BTREE_SPLIT_R_ROOT];
   [XLOG_BTREE_UNLINK_PAGE_META; XLOG_BTREE_UNLINK_PAGE]].

(** A run of records described one after the other into one buffer. *)
Definition describe_all {C : XlogConsts} (w : World)
  (records : list (AccessMethod * XLogRecord)) : World :=
  fold_left (fun w' ar => rm_desc (fst ar) w' (snd ar)) records w.

(** * Results *)

(** ** Strings *)

Lemma append_assoc (a b c : string) : (a ++ b) ++ c = a ++ (b ++ c).
Proof. induction a as [|ch a IH]; simpl; [reflexivity | now rewrite IH]. Qed.

Lemma append_nil_r (a : string) : a ++ "" = a.
Proof. induction a as [|ch a IH]; simpl; [reflexivity | now rewrite IH]. Qed.

Lemma append_inv_head (a b c : string) : a ++ b = a ++ c -> b = c.
Proof.
  induction a as [|ch a IH]; simpl; intros H; [exact H|].
  injection H as H. auto.
Qed.

Lemma append_fixed (a b : string) : a ++ b = a <-> b = "".
Proof.
  split; intros H.
  - apply (append_inv_head a). now rewrite append_nil_r.
  - subst b. apply append_nil_r.
Qed.



Lemma includes_append_l (a s t : string) : includes s t -> includes (a ++ s) t.
Proof.
  intros (pre & post & ->). exists (a ++ pre), post.
  now rewrite append_assoc.
Qed.


Lemma includes_head (t post : string) : includes (t ++ post) t.
Proof. now exists "", post. Qed.

Lemma includes_refl (t : string) : includes t t.
Proof. exists "", "". simpl. now rewrite append_nil_r. Qed.

(** ** Loads see only the bytes they cover *)

Lemma load_u8_agree m m' p len a :
  agree_on m m' p len -> p <= a -> a + 1 <= p + len ->
  load_u8 m a = load_u8 m' a.
Proof. intros H ? ?. unfold load_u8. rewrite (H a); [reflexivity | lia]. Qed.

Lemma load_u16_agree m m' p len a :
  agree_on m m' p len -> p <= a -> a + 2 <= p + len ->
  load_u16 m a = load_u16 m' a.
Proof.
  intros H ? ?. unfold load_u16.
  rewrite (load_u8_agree m m' p len a), (load_u8_agree m m' p len (a + 1));
    auto; lia.
Qed.

Lemma load_u32_agree m m' p len a :
  agree_on m m' p len -> p <= a -> a + 4 <= p + len ->
  load_u32 m a = load_u32 m' a.
Proof.
  intros H ? ?. unfold load_u32.
  rewrite (load_u16_agree m m' p len a), (load_u16_agree m m' p len (a + 2));
    auto; lia.
Qed.

Lemma agree_on_shrink m m' p len len' :
  agree_on m m' p len -> len' <= len -> agree_on m m' p len'.
Proof. intros H ? a ?. apply H. lia. Qed.



(** ** The routines against the typed rendering *)

Arguments fmt_u : simpl never.
Arguments fmt_d : simpl never.
Arguments fmt_node : simpl never.
Arguments fmt_tid : simpl never.

(** Brings nested appends to the right-nested form. *)
Ltac norm_append := repeat first [rewrite append_assoc | progress cbn].

Section Rendering.

Context {C : XlogConsts}.

Lemma btree_text_format m record :
  btree_text m record =
  match btree_decode m record with Some r => format r | None => "" end.
Proof.
  unfold btree_text, btree_decode, btree_desc, nbtdesc.out_target,
    appendStringInfo.
  repeat (match goal with |- context [case_of ?i ?l] =>
                            destruct (case_of i l) end;
          [cbn; unfold fmt_tid, ItemPointerGetBlockNumber,
             ItemPointerGetOffsetNumber; norm_append; reflexivity|]).
  reflexivity.
Qed.

Lemma gist_text_format m record :
  gist_text m record =
  match gist_decode m record with Some r => format r | None => "" end.
Proof.
  unfold gist_text, gist_decode, gist_desc, out_gistxlogPageUpdate,
    out_gistxlogPageSplit, gistdesc.out_target, appendStringInfo,
    appendStringInfoString.
  repeat (match goal with |- context [case_of ?i ?l] =>
                            destruct (case_of i l) end;
          [norm_append; reflexivity|]).
  reflexivity.
Qed.

Lemma btree_desc_text w record :
  btree_desc w record =
  {| heap := heap w; buf := buf w ++ btree_text (heap w) record |}.
Proof.
  unfold btree_text, btree_desc, nbtdesc.out_target, appendStringInfo.
  repeat (match goal with |- context [case_of ?i ?l] =>
                            destruct (case_of i l) end;
          [norm_append; reflexivity|]).
  cbn. rewrite append_nil_r. now destruct w.
Qed.

Lemma gist_desc_text w record :
  gist_desc w record =
  {| heap := heap w; buf := buf w ++ gist_text (heap w) record |}.
Proof.
  unfold gist_text, gist_desc, out_gistxlogPageUpdate,
    out_gistxlogPageSplit, gistdesc.out_target, appendStringInfo,
    appendStringInfoString.
  repeat (match goal with |- context [case_of ?i ?l] =>
                            destruct (case_of i l) end;
          [norm_append; reflexivity|]).
  cbn. rewrite append_nil_r. now destruct w.
Qed.

End Rendering.

(** ** Decoding sees only the header it casts to *)

Ltac unfold_casts :=
  cbv [xl_btree_insert.cast xl_btree_split.cast xl_btree_vacuum.cast
       xl_btree_delete.cast xl_btree_mark_page_halfdead.cast
       xl_btree_unlink_page.cast xl_btree_newroot.cast
       xl_btree_reuse_page.cast gistxlogPageUpdate.cast
       gistxlogPageSplit.cast xl_btreetid.cast RelFileNode.cast
       ItemPointerData.cast].

Ltac unfold_sizes H :=
  cbv [xl_btree_insert.size xl_btree_split.size xl_btree_vacuum.size
       xl_btree_delete.size xl_btree_mark_page_halfdead.size
       xl_btree_unlink_page.size xl_btree_newroot.size
       xl_btree_reuse_page.size gistxlogPageUpdate.size
       gistxlogPageSplit.size xl_btreetid.size RelFileNode.size
       ItemPointerData.size] in H.

Ltac agree_loads H :=
  unfold_sizes H; unfold_casts;
  match type of H with
  | agree_on ?m ?m' ?p ?len =>
      repeat first
        [ match goal with
          | |- context [load_u32 m ?a] =>
              rewrite (load_u32_agree m m' p len a H) by lia
          end
        | match goal with
          | |- context [load_u16 m ?a] =>
              rewrite (load_u16_agree m m' p len a H) by lia
          end ]
  end;
  reflexivity.

Section Windows.

Context {C : XlogConsts}.

Lemma btree_decode_agree m m' record :
  agree_on m m' (XLogRecGetData record)
    (btree_header_size (record_info record)) ->
  btree_decode m record = btree_decode m' record.
Proof.
  unfold btree_decode, btree_header_size.
  repeat (match goal with |- context [case_of ?i ?l] =>
                            destruct (case_of i l) end;
          [intros H; agree_loads H|]).
  reflexivity.
Qed.

Lemma gist_decode_agree m m' record :
  agree_on m m' (XLogRecGetData record)
    (gist_header_size (record_info record)) ->
  gist_decode m record = gist_decode m' record.
Proof.
  unfold gist_decode, gist_header_size.
  repeat (match goal with |- context [case_of ?i ?l] =>
                            destruct (case_of i l) end;
          [intros H; agree_loads H|]).
  reflexivity.
Qed.



(** ** Labels, names and arms *)

Lemma case_of_In info labels : case_of info labels = true <-> In info labels.
Proof.
  unfold case_of. rewrite existsb_exists. split.
  - intros (x & Hx & E). apply Z.eqb_eq in E. now subst.
  - intros H. exists info. split; [exact H | apply Z.eqb_refl].
Qed.

Lemma case_of_not_In info labels :
  case_of info labels = false <-> ~ In info labels.
Proof.
  rewrite <- case_of_In. destruct (case_of info labels); split; intros H;
    try reflexivity; try discriminate; try (intro; discriminate).
  exfalso. now apply H.
Qed.


Lemma btree_identify_None info :
  btree_identify info = None <-> case_of info btree_labels = false.
Proof.
  unfold btree_identify, btree_labels.
  change (case_of info ?l) with (existsb (Z.eqb info) l).
  cbn [existsb].
  repeat (match goal with
          | |- context [info =? ?t] => destruct (info =? t)
          end; cbn [orb];
          [split; intros H; try discriminate;
           rewrite ?orb_true_r in H; discriminate|]).
  split; reflexivity.
Qed.

Lemma gist_identify_None info :
  gist_identify info = None <-> case_of info gist_labels = false.
Proof.
  unfold gist_identify, gist_labels.
  change (case_of info ?l) with (existsb (Z.eqb info) l).
  cbn [existsb].
  repeat (match goal with
          | |- context [info =? ?t] => destruct (info =? t)
          end; cbn [orb];
          [split; intros H; try discriminate;
           rewrite ?orb_true_r in H; discriminate|]).
  split; reflexivity.
Qed.

Lemma btree_decode_None m record :
  btree_decode m record = None <->
  case_of (record_info record) btree_labels = false.
Proof.
  unfold btree_decode, btree_labels.
  generalize (record_info record) as info. intros info.
  change (case_of info ?l) with (existsb (Z.eqb info) l).
  cbn [existsb].
  repeat (match goal with
          | |- context [info =? ?t] => destruct (info =? t)
          end; cbn [orb];
          [split; intros H; try discriminate;
           rewrite ?orb_true_r in H; discriminate|]).
  split; reflexivity.
Qed.

Lemma gist_decode_None m record :
  gist_decode m record = None <->
  case_of (record_info record) gist_labels = false.
Proof.
  unfold gist_decode, gist_labels.
  generalize (record_info record) as info. intros info.
  change (case_of info ?l) with (existsb (Z.eqb info) l).
  cbn [existsb].
  repeat (match goal with
          | |- context [info =? ?t] => destruct (info =? t)
          end; cbn [orb];
          [split; intros H; try discriminate;
           rewrite ?orb_true_r in H; discriminate|]).
  split; reflexivity.
Qed.

End Windows.

Lemma format_nonempty (r : LogRecord) : format r <> "".
Proof. destruct r; cbn; discriminate. Qed.

(** Pairwise distinct labels, one inequality at a time. *)
Lemma NoDup_before {A : Type} (x y : A) (l1 l2 : list A) :
  NoDup (l1 ++ x :: l2) -> In y l2 -> x <> y.
Proof.
  intros H Hy E. subst y. apply NoDup_remove_2 in H.
  apply H, in_or_app. now right.
Qed.

Section Scenarios.

Context {C : XlogConsts}.

Lemma split_not_insert info :
  NoDup btree_labels ->
  In info [XLOG_BTREE_SPLIT_L; XLOG_BTREE_SPLIT_R; XLOG_BTREE_SPLIT_L_ROOT;
           XLOG_BTREE_SPLIT_R_ROOT] ->
  case_of info [XLOG_BTREE_INSERT_LEAF; XLOG_BTREE_INSERT_UPPER;
                XLOG_BTREE_INSERT_META] = false.
Proof.
  intros ND Hin. apply case_of_not_In. intros Hins.
  assert (Hlater : In info
            (skipn 3 btree_labels)).
  { cbn [skipn btree_labels]. cbn [In] in Hin |- *. tauto. }
  cbn [In] in Hins. destruct Hins as [E | [E | [E | []]]].
  - apply (NoDup_before XLOG_BTREE_INSERT_LEAF info [] _ ND); [|exact E].
    cbn [btree_labels skipn] in *. cbn [In] in *. tauto.
  - apply (NoDup_before XLOG_BTREE_INSERT_UPPER info
             [XLOG_BTREE_INSERT_LEAF] _ ND); [|exact E].
    cbn [btree_labels skipn] in *. cbn [In] in *. tauto.
  - apply (NoDup_before XLOG_BTREE_INSERT_META info
             [XLOG_BTREE_INSERT_LEAF; XLOG_BTREE_INSERT_UPPER] _ ND);
      [|exact E].
    exact Hlater.
Qed.

End Scenarios.

(** ** The same facts by access method *)

Section ByAccessMethod.

Context {C : XlogConsts}.

Lemma rm_desc_text am w record :
  rm_desc am w record =
  {| heap := heap w; buf := buf w ++ rm_text am (heap w) record |}.
Proof. destruct am; [apply btree_desc_text | apply gist_desc_text]. Qed.

Lemma rm_text_format am m record :
  rm_text am m record =
  match rm_decode am m record with Some r => format r | None => "" end.
Proof. destruct am; [apply btree_text_format | apply gist_text_format]. Qed.

Lemma rm_decode_agree am m m' record :
  agree_on m m' (XLogRecGetData record)
    (rm_header_size am (record_info record)) ->
  rm_decode am m record = rm_decode am m' record.
Proof. destruct am; [apply btree_decode_agree | apply gist_decode_agree]. Qed.

Lemma rm_identify_None am info :
  rm_identify am info = None <-> ~ In info (rm_labels am).
Proof.
  rewrite <- case_of_not_In.
  destruct am; [apply btree_identify_None | apply gist_identify_None].
Qed.

Lemma rm_decode_None am m record :
  rm_decode am m record = None <-> ~ In (record_info record) (rm_labels am).
Proof.
  rewrite <- case_of_not_In.
  destruct am; [apply btree_decode_None | apply gist_decode_None].
Qed.

Lemma rm_text_unknown am m record :
  ~ In (record_info record) (rm_labels am) -> rm_text am m record = "".
Proof.
  intros H. rewrite rm_text_format.
  apply (rm_decode_None am m) in H. now rewrite H.
Qed.

End ByAccessMethod.

(** ** The description routines *)

(** C3.  An insert-into-leaf record whose payload holds the relation
    locator (1663, 12345, 67890) and the target item address (block 42,
    offset 3) makes [btree_desc] append exactly the text
    ["rel 1663/12345/67890; tid 42/3"]. *)
Theorem insert_leaf_scenario (C : XlogConsts) (w : World)
  (record : XLogRecord) :
  record_info record = XLOG_BTREE_INSERT_LEAF ->
  xl_btree_insert.cast (heap w) (XLogRecGetData record) =
  {| xl_btree_insert.target :=
       {| xl_btreetid.node :=
            {| RelFileNode.spcNode := 1663;
               RelFileNode.dbNode := 12345;
               RelFileNode.relNode := 67890 |};
          xl_btreetid.tid :=
            {| ItemPointerData.ip_blkid := 42;
               ItemPointerData.ip_posid := 3 |} |} |} ->
  buf (btree_desc w record) = buf w ++ "rel 1663/12345/67890; tid 42/3".
Proof.
  intros Hinfo Hrec.
  rewrite btree_desc_text, btree_text_format. cbn [buf]. f_equal.
  unfold btree_decode. rewrite Hinfo.
  unfold case_of at 1. cbn [existsb]. rewrite Z.eqb_refl. cbn [orb].
  rewrite Hrec. reflexivity.
Qed.

Lemma insert_leaf_scenario_witness :
  buf (@btree_desc sample_consts insert_leaf_world insert_leaf_record)
  = "rel 1663/12345/67890; tid 42/3".
Proof.
  apply (insert_leaf_scenario sample_consts insert_leaf_world
           insert_leaf_record); reflexivity.
Defined.

(** C4.  A split record (any of the four orientations) with left sibling
    10, right sibling 11, next-right 12, level 0 and first-moved offset 4
    makes [btree_desc] append the relation locator followed by
    ["left 10, right 11, next 12, level 0, firstright 4"], with which the
    output ends. *)
Theorem split_scenario (C : XlogConsts) (w : World) (record : XLogRecord)
  (node : RelFileNode.t) :
  NoDup btree_labels ->
  In (record_info record)
    [XLOG_BTREE_SPLIT_L; XLOG_BTREE_SPLIT_R; XLOG_BTREE_SPLIT_L_ROOT;
     XLOG_BTREE_SPLIT_R_ROOT] ->
  xl_btree_split.cast (heap w) (XLogRecGetData record) =
  {| xl_btree_split.node := node;
     xl_btree_split.leftsib := 10;
     xl_btree_split.rightsib := 11;
     xl_btree_split.rnext := 12;
     xl_btree_split.level := 0;
     xl_btree_split.firstright := 4 |} ->
  buf (btree_desc w record) =
  buf w ++ ("rel " ++ fmt_node node ++ " ")
        ++ "left 10, right 11, next 12, level 0, firstright 4".
Proof.
  intros ND Hin Hrec.
  rewrite btree_desc_text, btree_text_format. cbn [buf]. f_equal.
  unfold btree_decode.
  rewrite (split_not_insert _ ND Hin).
  apply case_of_In in Hin. rewrite Hin, Hrec.
  cbn. rewrite append_assoc. reflexivity.
Qed.

Lemma sample_btree_labels_NoDup : NoDup (@btree_labels sample_consts).
Proof.
  unfold btree_labels; cbn.
  repeat (constructor; [cbn [In]; intros H; repeat destruct H as [H|H];
                         try discriminate H; exact H|]).
  constructor.
Qed.

Lemma split_scenario_witness :
  buf (@btree_desc sample_consts
         {| heap := mem_of_bytes 1000 split_payload; buf := "" |}
         {| xl_info := 64; xl_len := 30; xl_data := 1000 |})
  = "rel 1663/12345/67890 left 10, right 11, next 12, level 0, firstright 4".
Proof.
  apply (split_scenario sample_consts
           {| heap := mem_of_bytes 1000 split_payload; buf := "" |}
           {| xl_info := 64; xl_len := 30; xl_data := 1000 |}
           {| RelFileNode.spcNode := 1663; RelFileNode.dbNode := 12345;
              RelFileNode.relNode := 67890 |}).
  - exact sample_btree_labels_NoDup.
  - cbn. tauto.
  - reflexivity.
Defined.

(** C5.  For every access method the identify routine names exactly the
    tags of that access method's closed enumeration (fourteen case labels
    for the ordered tree, three for the hierarchical tree); every other
    tag value gets no name ([NULL], here [None]). *)
Theorem identify_closed_enumeration (C : XlogConsts) (am : AccessMethod)
  (info : Z) :
  (List.length (rm_labels Btree) = 14%nat
   /\ List.length (rm_labels Gist) = 3%nat)
  /\ ((exists name, rm_identify am info = Some name) <->
      In info (rm_labels am))
  /\ (rm_identify am info = None <-> ~ In info (rm_labels am)).
Proof.
  split; [split; reflexivity|].
  split; [|apply rm_identify_None].
  pose proof (rm_identify_None am info) as N.
  split.
  - intros (name & E).
    destruct (in_dec Z.eq_dec info (rm_labels am)) as [Hin|Hout];
      [exact Hin|].
    apply N in Hout. congruence.
  - intros Hin. destruct (rm_identify am info) as [name|].
    + now exists name.
    + exfalso. now apply (proj1 N).
Qed.

(** C9.  For each access method a record makes the description routine
    append text if and only if the identify routine names the record's
    kind tag. *)
Theorem formattable_iff_identifiable (C : XlogConsts) (am : AccessMethod)
  (w : World) (record : XLogRecord) :
  buf (rm_desc am w record) <> buf w <->
  rm_identify am (record_info record) <> None.
Proof.
  rewrite rm_desc_text. cbn [buf].
  rewrite append_fixed, rm_text_format, rm_identify_None,
    <- (rm_decode_None am (heap w)).
  destruct (rm_decode am (heap w) record) as [r|].
  - split; intros _; [discriminate | apply format_nonempty].
  - split; intros H; now contradiction H.
Qed.

(** C10.  The description routines only append: they leave memory, and
    with it the record's bytes, as it was, and the buffer afterwards is
    the buffer before followed by the text rendered for the record. *)
Theorem desc_append_only (C : XlogConsts) (am : AccessMethod) (w : World)
  (record : XLogRecord) :
  heap (rm_desc am w record) = heap w
  /\ buf (rm_desc am w record) = buf w ++ rm_text am (heap w) record.
Proof.
  rewrite rm_desc_text. cbn. auto.
Qed.

(** ** Bounds *)

Lemma agree_on_first_four :
  agree_on (mem_of_bytes 1000 insert_leaf_payload)
    (mem_of_bytes 1000 [127; 6; 0; 0]) 1000 4.
Proof.
  intros a Ha.
  assert (E : a = 1000 \/ a = 1001 \/ a = 1002 \/ a = 1003) by lia.
  destruct E as [-> | [-> | [-> | ->]]]; reflexivity.
Qed.

(** C2, as stated, fails: the record [short_record] holds fewer bytes
    than the header of its kind, yet [btree_desc] raises nothing and
    renders the bytes that follow the record; two memories that agree on
    the record's own bytes give two different texts. *)
Lemma short_record_read_past_end :
  xl_len short_record
    < @rm_header_size sample_consts Btree
        (@record_info sample_consts short_record)
  /\ @rm_text sample_consts Btree (mem_of_bytes 1000 insert_leaf_payload)
       short_record = "rel 1663/12345/67890; tid 42/3"
  /\ ~ @reads_within sample_consts Btree short_record.
Proof.
  split; [reflexivity|]. split; [reflexivity|].
  intros H. specialize (H _ _ agree_on_first_four).
  vm_compute in H. discriminate H.
Qed.

(** C2, amended.  The description routines make no length check and
    have no error result: the text does not depend on the declared
    payload length.  For every access method and kind, a record that
    holds at least the bytes of the header its kind is cast to is
    rendered from its own bytes only. *)
Theorem decode_reads_header_only (C : XlogConsts) (am : AccessMethod)
  (record : XLogRecord) :
  rm_header_size am (record_info record) <= xl_len record ->
  reads_within am record
  /\ forall m len,
       rm_text am m {| xl_info := xl_info record; xl_len := len;
                       xl_data := xl_data record |}
       = rm_text am m record.
Proof.
  intros Hlen. split.
  - intros m m' H. rewrite !rm_text_format.
    rewrite (rm_decode_agree am m m' record); [reflexivity|].
    eapply agree_on_shrink; eauto.
  - intros m len. destruct am; reflexivity.
Qed.

Lemma decode_reads_header_only_witness :
  @reads_within sample_consts Btree insert_leaf_record.
Proof.
  apply (decode_reads_header_only sample_consts Btree insert_leaf_record).
  vm_compute. discriminate.
Defined.

(** ** Decimal text *)

Arguments dec : simpl never.

Lemma string_forall_app p (s t : string) :
  string_forall p (s ++ t) = string_forall p s && string_forall p t.
Proof.
  induction s as [|c s IH]; simpl; [reflexivity|].
  now rewrite IH, andb_assoc.
Qed.

Lemma string_of_uint_digits d :
  string_forall is_digit (NilEmpty.string_of_uint d) = true.
Proof. induction d; simpl; auto. Qed.

Lemma dec_digits n : string_forall is_digit (dec n) = true.
Proof. apply string_of_uint_digits. Qed.

Lemma dec_inj n n' : dec n = dec n' -> n = n'.
Proof.
  unfold dec. intros E.
  apply (f_equal NilEmpty.uint_of_string) in E.
  rewrite !NilEmpty.usu in E. injection E as E.
  now apply DecimalN.Unsigned.to_uint_inj.
Qed.

Lemma digits_app_inj (u v s t : string) :
  string_forall is_digit u = true -> string_forall is_digit v = true ->
  no_digit_head s = true -> no_digit_head t = true ->
  u ++ s = v ++ t -> u = v /\ s = t.
Proof.
  revert v. induction u as [|a u IH]; intros [|b v]; simpl;
    intros Hu Hv Hs Ht E.
  - now split.
  - subst s. simpl in Hs. apply andb_prop in Hv as [Hb _].
    rewrite Hb in Hs. discriminate.
  - subst t. simpl in Ht. apply andb_prop in Hu as [Ha _].
    rewrite Ha in Ht. discriminate.
  - injection E as -> E.
    apply andb_prop in Hu as [_ Hu]. apply andb_prop in Hv as [_ Hv].
    destruct (IH v Hu Hv Hs Ht E) as [-> ->]. now split.
Qed.

Lemma dec_app_inj n n' (s t : string) :
  no_digit_head s = true -> no_digit_head t = true ->
  dec n ++ s = dec n' ++ t -> n = n' /\ s = t.
Proof.
  intros Hs Ht E.
  destruct (digits_app_inj _ _ _ _ (dec_digits n) (dec_digits n') Hs Ht E)
    as [En Es].
  split; [now apply dec_inj | exact Es].
Qed.

Lemma dec_app_inj_l n n' (t : string) :
  no_digit_head t = true -> dec n = dec n' ++ t -> n = n' /\ "" = t.
Proof.
  intros Ht E. apply dec_app_inj; [reflexivity | exact Ht |].
  now rewrite append_nil_r.
Qed.

Lemma dec_app_inj_r n n' (s : string) :
  no_digit_head s = true -> dec n ++ s = dec n' -> n = n' /\ s = "".
Proof.
  intros Hs E. apply dec_app_inj; [exact Hs | reflexivity |].
  now rewrite append_nil_r.
Qed.

Lemma string_cons_inj (c : ascii) (s t : string) :
  String c s = String c t -> s = t.
Proof. now intros [= ->]. Qed.

Lemma fmt_u_in_range z : is_u32 z -> fmt_u z = dec (Z.to_N z).
Proof.
  unfold is_u32, fmt_u, uint32. intros H.
  rewrite Z.mod_small; [reflexivity|].
  change (2 ^ 32) with 4294967296. lia.
Qed.

Lemma fmt_d_in_range z : is_u16 z -> fmt_d z = dec (Z.to_N z).
Proof.
  unfold is_u16, fmt_d, sint32, uint32. intros H.
  change (2 ^ 32) with 4294967296. change (2 ^ 31) with 2147483648.
  rewrite Z.mod_small by lia.
  destruct (z <? 2147483648) eqn:E1; [|apply Z.ltb_ge in E1; lia].
  destruct (z <? 0) eqn:E2; [apply Z.ltb_lt in E2; lia | reflexivity].
Qed.

(** ** Loaded fields lie in the range of their type *)

Lemma lor_range n a b :
  0 < n -> 0 <= a < 2 ^ n -> 0 <= b < 2 ^ n -> 0 <= Z.lor a b < 2 ^ n.
Proof.
  intros Hn Ha Hb. split; [apply Z.lor_nonneg; lia|].
  destruct (Z.eq_dec (Z.lor a b) 0) as [E|E].
  - rewrite E. apply Z.pow_pos_nonneg; lia.
  - assert (Hpos : 0 < Z.lor a b).
    { assert (0 <= Z.lor a b) by (apply Z.lor_nonneg; lia). lia. }
    apply Z.log2_lt_pow2; [exact Hpos|].
    rewrite Z.log2_lor by lia.
    apply Z.max_lub_lt.
    + destruct (Z.eq_dec a 0) as [->|Na]; [simpl; lia|].
      apply Z.log2_lt_pow2; lia.
    + destruct (Z.eq_dec b 0) as [->|Nb]; [simpl; lia|].
      apply Z.log2_lt_pow2; lia.
Qed.

Lemma load_u8_range m a : 0 <= load_u8 m a < 256.
Proof. unfold load_u8, uint8. apply Z.mod_pos_bound. reflexivity. Qed.

Lemma load_u16_range m a : is_u16 (load_u16 m a).
Proof.
  unfold is_u16, load_u16.
  pose proof (load_u8_range m a). pose proof (load_u8_range m (a + 1)).
  change 65536 with (2 ^ 16). apply lor_range; [lia | |].
  - change (2 ^ 16) with 65536. lia.
  - rewrite Z.shiftl_mul_pow2 by lia.
    change (2 ^ 8) with 256. change (2 ^ 16) with 65536. lia.
Qed.

Lemma load_u32_range m a : is_u32 (load_u32 m a).
Proof.
  unfold is_u32, load_u32.
  pose proof (load_u16_range m a) as H1.
  pose proof (load_u16_range m (a + 2)) as H2. unfold is_u16 in *.
  change 4294967296 with (2 ^ 32). apply lor_range; [lia | |].
  - change (2 ^ 32) with 4294967296. lia.
  - rewrite Z.shiftl_mul_pow2 by lia.
    change (2 ^ 16) with 65536. change (2 ^ 32) with 4294967296. lia.
Qed.

Lemma RelFileNode_cast_range m p : node_in_range (RelFileNode.cast m p).
Proof. repeat split; apply load_u32_range. Qed.

Lemma rm_decode_in_range {C : XlogConsts} am m record r :
  rm_decode am m record = Some r -> fields_in_range r.
Proof.
  destruct am; cbn [rm_decode]; [unfold btree_decode | unfold gist_decode];
    repeat (match goal with |- context [case_of ?i ?l] =>
                              destruct (case_of i l) end;
            [intros [= <-]; cbn;
             repeat split;
             first [apply load_u32_range | apply load_u16_range]|]);
    discriminate.
Qed.

Lemma is_u16_is_u32 z : is_u16 z -> is_u32 z.
Proof. unfold is_u16, is_u32. lia. Qed.

(** ** What the text contains *)

Lemma includes_cons (c : ascii) (s t : string) :
  includes s t -> includes (String c s) t.
Proof.
  intros (pre & post & ->). now exists (String c pre), post.
Qed.

Ltac find_included :=
  solve [ repeat first
            [ apply includes_refl
            | apply includes_head
            | apply includes_cons
            | apply includes_append_l ] ].

(** On a value in the range of its type [%u], and [%d] on a 16-bit
    value, print the decimal of the value. *)
Lemma fmt_u_decimal z : is_u32 z -> fmt_u z = decimal z.
Proof. exact (fmt_u_in_range z). Qed.

Lemma fmt_d_decimal z : is_u16 z -> fmt_d z = decimal z.
Proof. exact (fmt_d_in_range z). Qed.

Lemma fmt_node_locator_text n :
  node_in_range n -> fmt_node n = locator_text n.
Proof.
  intros (Hs & Hd & Hr). unfold fmt_node, locator_text.
  now rewrite !fmt_u_decimal.
Qed.

Lemma fmt_tid_item_address_text p :
  tid_in_range p -> fmt_tid p = item_address_text p.
Proof.
  intros (Hb & Ho). unfold fmt_tid, item_address_text,
    ItemPointerGetBlockNumber, ItemPointerGetOffsetNumber.
  rewrite !fmt_u_decimal; [reflexivity | now apply is_u16_is_u32 | easy].
Qed.

Ltac to_routine_text :=
  repeat match goal with
         | H : node_in_range ?n |- context [locator_text ?n] =>
             rewrite <- (fmt_node_locator_text n H)
         | H : tid_in_range ?p |- context [item_address_text ?p] =>
             rewrite <- (fmt_tid_item_address_text p H)
         | H : is_u32 ?z |- context [decimal ?z] =>
             rewrite <- (fmt_u_decimal z H)
         | H : is_u16 ?z |- context [decimal ?z] =>
             rewrite <- (fmt_d_decimal z H)
         end.

Lemma format_includes_fields (r : LogRecord) :
  fields_in_range r ->
  Forall (fun n => includes (format r) (locator_text n)) (locators r)
  /\ Forall (fun p => includes (format r) (item_address_text p))
       (item_addresses r)
  /\ Forall (fun v => includes (format r) (decimal v))
       (distinguishing_fields r).
Proof.
  destruct r; cbn [fields_in_range locators item_addresses
                   distinguishing_fields];
    intros H; repeat match goal with
                     | H : _ /\ _ |- _ => destruct H
                     end;
    repeat split; repeat constructor; to_routine_text;
    cbn [format]; find_included.
Qed.

Lemma mem_of_bytes_app_agree (base : Z) (l l' : list Z) :
  agree_on (mem_of_bytes base l) (mem_of_bytes base (l ++ l')) base
    (Z.of_nat (List.length l)).
Proof.
  intros a Ha. unfold mem_of_bytes.
  destruct (a <? base) eqn:E; [reflexivity|].
  rewrite app_nth1 by lia. reflexivity.
Qed.

(** C7.  The rendering is a function of the record alone: the text the
    routine appends is the typed rendering [format] of the decoded
    record, whatever the buffer held before and whatever memory holds
    outside the record's header.  That text contains every relation
    locator of the record written [spc/db/rel], every item address
    written [block/offset], and the decimal of every other field that
    tells the records of the kind apart, each as the specification words
    it and not as the routines' helpers happen to print. *)
Theorem format_deterministic_complete (C : XlogConsts) (am : AccessMethod)
  (w w' : World) (record : XLogRecord) (r : LogRecord) :
  rm_decode am (heap w) record = Some r ->
  agree_on (heap w) (heap w') (XLogRecGetData record)
    (rm_header_size am (record_info record)) ->
  buf (rm_desc am w record) = buf w ++ format r
  /\ buf (rm_desc am w' record) = buf w' ++ format r
  /\ Forall (fun n => includes (format r) (locator_text n)) (locators r)
  /\ Forall (fun p => includes (format r) (item_address_text p))
       (item_addresses r)
  /\ Forall (fun v => includes (format r) (decimal v))
       (distinguishing_fields r).
Proof.
  intros Hdec Hagree.
  rewrite !rm_desc_text, !rm_text_format. cbn [buf].
  rewrite <- (rm_decode_agree am _ _ record Hagree), Hdec.
  split; [reflexivity|]. split; [reflexivity|].
  apply format_includes_fields. eapply rm_decode_in_range. exact Hdec.
Qed.

Lemma format_deterministic_complete_witness :
  buf (@rm_desc sample_consts Btree split_world split_record)
  = buf split_world ++ format split_decoded
  /\ buf (@rm_desc sample_consts Btree split_world_later split_record)
     = buf split_world_later ++ format split_decoded
  /\ Forall (fun n => includes (format split_decoded) (locator_text n))
       (locators split_decoded)
  /\ Forall (fun p => includes (format split_decoded) (item_address_text p))
       (item_addresses split_decoded)
  /\ Forall (fun v => includes (format split_decoded) (decimal v))
       (distinguishing_fields split_decoded).
Proof.
  apply (format_deterministic_complete sample_consts Btree
           split_world split_world_later split_record split_decoded).
  - reflexivity.
  - exact (mem_of_bytes_app_agree 1000 split_payload [9; 9; 9]).
Defined.

(** ** Replay on the model *)

Section ReplayFacts.

Import Replay.

Context {C : XlogConsts}.

Lemma handlerFor_known am m record :
  In (record_info record) (rm_labels am) ->
  exists r, handlerFor (Some am) m record = inl r
            /\ rm_decode am m record = Some r.
Proof.
  intros Hin. unfold handlerFor.
  destruct (rm_decode am m record) as [r|] eqn:E.
  - now exists r.
  - apply rm_decode_None in E. contradiction.
Qed.

Lemma handlerFor_unknown am m record :
  ~ In (record_info record) (rm_labels am) ->
  handlerFor (Some am) m record = inr UnknownKind.
Proof.
  intros Hout. unfold handlerFor.
  apply (rm_decode_None am m) in Hout. now rewrite Hout.
Qed.


End ReplayFacts.

(** C6, as stated, fails: for the unknown tag 224 [btree_desc] returns
    the buffer as it got it; nothing marks the record as unrecognized. *)
Lemma unknown_kind_emits_nothing :
  ~ In (@record_info sample_consts unknown_record)
      (@rm_labels sample_consts Btree)
  /\ @rm_desc sample_consts Btree
       {| heap := mem_of_bytes 1000 reuse_payload; buf := "" |}
       unknown_record
     = {| heap := mem_of_bytes 1000 reuse_payload; buf := "" |}.
Proof.
  split; [|reflexivity].
  cbn. intros H. repeat destruct H as [H|H]; try discriminate H; exact H.
Qed.

(** C6, amended (the replay part spec-modelled).  For a kind tag outside
    the enumeration of a recognized access method the description routine
    does not fail and appends nothing, the identify routine answers
    [None], from which a caller can tell the record is unrecognized, and
    replay of the record is fatal. *)
Theorem unknown_kind_handling (C : XlogConsts) (am : AccessMethod)
  (w : World) (record : XLogRecord) (active : list Z) (pos : Z)
  (p : Replay.Page) :
  ~ In (record_info record) (rm_labels am) ->
  rm_desc am w record = w
  /\ rm_identify am (record_info record) = None
  /\ Replay.replay active (Some am) (heap w) record pos p
     = Replay.Fatal Replay.UnknownKind.
Proof.
  intros Hout. split; [|split].
  - rewrite rm_desc_text, (rm_text_unknown am _ _ Hout), append_nil_r.
    now destruct w.
  - now apply rm_identify_None.
  - unfold Replay.replay. now rewrite (handlerFor_unknown am _ _ Hout).
Qed.

Lemma unknown_kind_handling_witness :
  @rm_desc sample_consts Gist insert_leaf_world unknown_record
  = insert_leaf_world
  /\ @rm_identify sample_consts Gist
       (@record_info sample_consts unknown_record) = None
  /\ @Replay.replay sample_consts [] (Some Gist) (heap insert_leaf_world)
       unknown_record 100 (unlinked_page 40)
     = Replay.Fatal Replay.UnknownKind.
Proof.
  apply (unknown_kind_handling sample_consts Gist insert_leaf_world
           unknown_record [] 100 (unlinked_page 40)).
  cbn. intros H. repeat destruct H as [H|H]; try discriminate H; exact H.
Defined.



(** * Further results on the description routines *)

Ltac rw_fmt H :=
  repeat match type of H with
         | context [fmt_u ?f] => rewrite (fmt_u_in_range f) in H
               by first [assumption | apply is_u16_is_u32; assumption]
         | context [fmt_d ?f] => rewrite (fmt_d_in_range f) in H by assumption
         end.

Ltac peel H :=
  repeat first
    [ discriminate H
    | apply string_cons_inj in H
    | apply dec_app_inj in H; [destruct H as [? H] | reflexivity | reflexivity]
    | apply dec_app_inj_l in H; [destruct H as [? H] | reflexivity]
    | apply dec_app_inj_r in H; [destruct H as [? H] | reflexivity]
    | apply dec_inj in H ].

Ltac break_records :=
  repeat match goal with
         | x : xl_btree_insert.t |- _ => destruct x
         | x : xl_btree_split.t |- _ => destruct x
         | x : xl_btree_vacuum.t |- _ => destruct x
         | x : xl_btree_delete.t |- _ => destruct x
         | x : xl_btree_mark_page_halfdead.t |- _ => destruct x
         | x : xl_btree_unlink_page.t |- _ => destruct x
         | x : xl_btree_newroot.t |- _ => destruct x
         | x : xl_btree_reuse_page.t |- _ => destruct x
         | x : gistxlogPageUpdate.t |- _ => destruct x
         | x : gistxlogPageSplit.t |- _ => destruct x
         | x : xl_btreetid.t |- _ => destruct x
         | x : RelFileNode.t |- _ => destruct x
         | x : ItemPointerData.t |- _ => destruct x
         end.

Ltac split_ranges :=
  repeat match goal with
         | H : _ /\ _ |- _ => destruct H
         end.

Lemma format_inj (a b : LogRecord) :
  fields_in_range a -> fields_in_range b -> format a = format b -> a = b.
Proof.
  destruct a, b; break_records;
    cbn [fields_in_range node_in_range tid_in_range
         xl_btree_insert.target xl_btreetid.node xl_btreetid.tid
         RelFileNode.spcNode RelFileNode.dbNode RelFileNode.relNode
         ItemPointerData.ip_blkid ItemPointerData.ip_posid];
    cbn; unfold node_in_range, tid_in_range; cbn;
    intros Ha Hb H; split_ranges;
    unfold fmt_node, fmt_tid, ItemPointerGetBlockNumber,
      ItemPointerGetOffsetNumber in H; cbn in H;
    rw_fmt H.
  all: repeat first [rewrite append_assoc in H | progress cbn in H].
  all: peel H.
  all: try (repeat match goal with
              | E : Z.to_N ?x = Z.to_N ?y |- _ =>
                  apply Z2N.inj in E; [subst x | unfold is_u32, is_u16 in *; lia ..]
              end; reflexivity).
Qed.

(** X1.  The text determines what was printed: when two records, of
    whatever kinds, memories or access methods, are described by the
    same text, they were rendered by the same arm and every value that
    arm printed - the components of the locators and item addresses,
    the block numbers, levels, counts and transaction ids - is the same
    in both.  Nothing is said of header fields an arm does not print. *)
Theorem text_determines_printed_values (C : XlogConsts)
  (am am' : AccessMethod) (m m' : Mem) (record record' : XLogRecord)
  (a b : LogRecord) :
  rm_decode am m record = Some a ->
  rm_decode am' m' record' = Some b ->
  rm_text am m record = rm_text am' m' record' ->
  same_arm a b = true /\ printed_values a = printed_values b.
Proof.
  intros Ha Hb. rewrite !rm_text_format, Ha, Hb. intros H.
  apply format_inj in H; [|eapply rm_decode_in_range; eassumption ..].
  subst b. split; [now destruct a | reflexivity].
Qed.

Lemma text_determines_printed_values_witness :
  same_arm split_decoded
    (BtreeSplit
       (xl_btree_split.cast
          (mem_of_bytes 2000 (split_payload ++ [7; 7])%list) 2000)) = true
  /\ printed_values split_decoded
     = printed_values
         (BtreeSplit
            (xl_btree_split.cast
               (mem_of_bytes 2000 (split_payload ++ [7; 7])%list) 2000)).
Proof.
  apply (text_determines_printed_values sample_consts Btree Btree
           (mem_of_bytes 1000 split_payload)
           (mem_of_bytes 2000 (split_payload ++ [7; 7])%list)
           split_record
           {| xl_info := 96; xl_len := 30; xl_data := 2000 |});
    reflexivity.
Defined.

Ltac walk_chain x :=
  lazymatch goal with
  | |- (if (x =? ?t) || false then _ else _) = _ -> _ =>
      let E := fresh "E" in
      destruct (x =? t) eqn:E; cbn [orb];
      [ apply Z.eqb_eq in E | clear E; walk_chain x ]
  | _ => idtac
  end.

(** X2.  A name is handed out for one tag value only: two tags that an
    identify routine names alike are the same tag. *)
Theorem identify_name_determines_tag (C : XlogConsts) (am : AccessMethod)
  (info info' : Z) (name : string) :
  rm_identify am info = Some name ->
  rm_identify am info' = Some name ->
  info = info'.
Proof.
  destruct am; cbn [rm_identify];
    cbv beta iota zeta delta [btree_identify gist_identify case_of existsb];
    walk_chain info;
    (intros H1; try discriminate H1; injection H1 as <-;
     walk_chain info'; intros H2; try discriminate H2; congruence).
Qed.

Lemma identify_name_determines_tag_witness : 6 * 8 = 48.
Proof.
  apply (identify_name_determines_tag sample_consts Btree (6 * 8) 48
           "SPLIT_L"); reflexivity.
Defined.

(** identify as a table lookup *)
Lemma rm_identify_lookup {C : XlogConsts} am info :
  rm_identify am info = lookup_name (combine (rm_labels am) (rm_names am)) info.
Proof.
  destruct am; cbn [rm_identify rm_labels rm_names];
    cbv beta iota zeta delta
      [btree_identify gist_identify case_of existsb btree_labels gist_labels
       btree_names gist_names combine lookup_name];
    rewrite !orb_false_r; reflexivity.
Qed.

Lemma lookup_name_combine (labels : list Z) (names : list string) :
  NoDup labels -> List.length labels = List.length names ->
  map (lookup_name (combine labels names)) labels = map Some names.
Proof.
  revert names. induction labels as [|l labels IH]; intros [|n names] ND Hlen;
    try discriminate Hlen; [reflexivity|].
  cbn [combine map lookup_name]. rewrite Z.eqb_refl. f_equal.
  inversion ND as [|? ? Hnotin ND']; subst.
  rewrite <- (IH names ND') by (cbn in Hlen; lia).
  apply map_ext_in. intros x Hx.
  destruct (Z.eqb_spec x l) as [->|_]; [contradiction | reflexivity].
Qed.

(** X3.  With pairwise distinct case labels each label gets the name
    written in its own arm: the labels, in source order, are named
    INSERT_LEAF ... REUSE_PAGE for the ordered tree and PAGE_UPDATE,
    PAGE_SPLIT, CREATE_INDEX for the hierarchical tree. *)
Theorem identify_table (C : XlogConsts) (am : AccessMethod) :
  NoDup (rm_labels am) ->
  map (rm_identify am) (rm_labels am) = map Some (rm_names am).
Proof.
  intros ND.
  rewrite <- (lookup_name_combine (rm_labels am) (rm_names am) ND)
    by (destruct am; reflexivity).
  apply map_ext. intros info. apply rm_identify_lookup.
Qed.

Lemma identify_table_witness :
  map (@rm_identify sample_consts Gist) (@rm_labels sample_consts Gist)
  = map Some (rm_names Gist).
Proof.
  apply (identify_table sample_consts Gist).
  cbn. repeat (constructor; [cbn [In]; intros H;
                             repeat destruct H as [H|H];
                             try discriminate H; exact H|]).
  constructor.
Defined.

Lemma NoDup_app_disjoint {A : Type} (l1 l2 : list A) (x : A) :
  NoDup (l1 ++ l2) -> In x l2 -> ~ In x l1.
Proof.
  induction l1 as [|a l1 IH]; cbn; intros ND Hx; [tauto|].
  inversion ND as [|? ? Hnotin ND']; subst.
  intros [-> | Hin].
  - apply Hnotin, in_or_app. now right.
  - now apply (IH ND' Hx).
Qed.

Lemma rm_desc_ext {C : XlogConsts} am w record record' :
  record_info record = record_info record' ->
  xl_data record = xl_data record' ->
  rm_desc am w record = rm_desc am w record'.
Proof.
  intros Hi Hd.
  destruct am; cbn [rm_desc]; unfold btree_desc, gist_desc, XLogRecGetData;
    now rewrite Hi, Hd.
Qed.

Lemma case_of_earlier (labels early : list Z) (n : nat) (info : Z) :
  NoDup labels -> incl early (firstn n labels) ->
  In info (skipn n labels) -> case_of info early = false.
Proof.
  intros ND Hincl Hin. apply case_of_not_In. intros Hearly.
  rewrite <- (firstn_skipn n labels) in ND.
  exact (NoDup_app_disjoint _ _ info ND Hin (Hincl _ Hearly)).
Qed.

(** X4.  [btree_desc] does not tell apart the kinds that share an arm:
    two records with the same payload whose tags both are insert tags,
    both split tags or both unlink tags leave the same buffer. *)
Theorem shared_arm_same_text (C : XlogConsts) (w : World)
  (record record' : XLogRecord) (arm : list Z) :
  NoDup btree_labels ->
  In arm btree_shared_arms ->
  In (record_info record) arm ->
  In (record_info record') arm ->
  xl_data record = xl_data record' ->
  btree_desc w record = btree_desc w record'.
Proof.
  intros ND Harm Hr Hr' Hd.
  unfold btree_desc, XLogRecGetData. rewrite Hd.
  cbn [btree_shared_arms In] in Harm.
  destruct Harm as [<- | [<- | [<- | []]]].
  - apply case_of_In in Hr, Hr'. now rewrite Hr, Hr'.
  - rewrite (split_not_insert _ ND Hr), (split_not_insert _ ND Hr').
    apply case_of_In in Hr, Hr'. now rewrite Hr, Hr'.
  - assert (E : forall info early,
              In info [XLOG_BTREE_UNLINK_PAGE_META; XLOG_BTREE_UNLINK_PAGE] ->
              incl early (firstn 10 btree_labels) ->
              case_of info early = false).
    { intros info early Hin Hincl.
      apply (case_of_earlier btree_labels early 10 info ND Hincl).
      cbn in Hin |- *. tauto. }
    assert (I1 : incl [XLOG_BTREE_INSERT_LEAF; XLOG_BTREE_INSERT_UPPER;
                       XLOG_BTREE_INSERT_META] (firstn 10 btree_labels))
      by (intros x Hx; cbn in Hx |- *; tauto).
    assert (I2 : incl [XLOG_BTREE_SPLIT_L; XLOG_BTREE_SPLIT_R;
                       XLOG_BTREE_SPLIT_L_ROOT; XLOG_BTREE_SPLIT_R_ROOT]
                   (firstn 10 btree_labels))
      by (intros x Hx; cbn in Hx |- *; tauto).
    assert (I3 : incl [XLOG_BTREE_VACUUM] (firstn 10 btree_labels))
      by (intros x Hx; cbn in Hx |- *; tauto).
    assert (I4 : incl [XLOG_BTREE_DELETE] (firstn 10 btree_labels))
      by (intros x Hx; cbn in Hx |- *; tauto).
    assert (I5 : incl [XLOG_BTREE_MARK_PAGE_HALFDEAD]
                   (firstn 10 btree_labels))
      by (intros x Hx; cbn in Hx |- *; tauto).
    rewrite (E _ _ Hr I1), (E _ _ Hr I2), (E _ _ Hr I3), (E _ _ Hr I4),
      (E _ _ Hr I5), (E _ _ Hr' I1), (E _ _ Hr' I2), (E _ _ Hr' I3),
      (E _ _ Hr' I4), (E _ _ Hr' I5).
    apply case_of_In in Hr, Hr'. now rewrite Hr, Hr'.
Qed.

Lemma shared_arm_same_text_witness :
  @btree_desc sample_consts
    {| heap := mem_of_bytes 1000 split_payload; buf := "" |}
    {| xl_info := 48; xl_len := 30; xl_data := 1000 |}
  = @btree_desc sample_consts
      {| heap := mem_of_bytes 1000 split_payload; buf := "" |}
      {| xl_info := 96; xl_len := 30; xl_data := 1000 |}.
Proof.
  apply (shared_arm_same_text sample_consts
           {| heap := mem_of_bytes 1000 split_payload; buf := "" |}
           {| xl_info := 48; xl_len := 30; xl_data := 1000 |}
           {| xl_info := 96; xl_len := 30; xl_data := 1000 |}
           [48; 64; 80; 96]).
  - exact sample_btree_labels_NoDup.
  - cbn. tauto.
  - cbn. tauto.
  - cbn. tauto.
  - reflexivity.
Defined.

(** X5.  The description routines ignore the flag bits of the info
    byte: setting bits that lie within [XLR_INFO_MASK] changes nothing
    of what is appended. *)
Theorem flag_bits_ignored (C : XlogConsts) (am : AccessMethod) (w : World)
  (record : XLogRecord) (flags : Z) :
  Z.land flags XLR_INFO_MASK = flags ->
  rm_desc am w {| xl_info := Z.lor (xl_info record) flags;
                  xl_len := xl_len record;
                  xl_data := xl_data record |}
  = rm_desc am w record.
Proof.
  intros Hflags. apply rm_desc_ext; [|reflexivity].
  unfold record_info. cbn [xl_info]. f_equal.
  rewrite Z.land_lor_distr_l, <- Hflags, <- Z.land_assoc,
    Z.land_lnot_diag, Z.land_0_r. apply Z.lor_0_r.
Qed.

Lemma flag_bits_ignored_witness :
  @rm_desc sample_consts Btree
    {| heap := mem_of_bytes 1000 split_payload; buf := "" |}
    {| xl_info := Z.lor 64 8; xl_len := 30; xl_data := 1000 |}
  = @rm_desc sample_consts Btree
      {| heap := mem_of_bytes 1000 split_payload; buf := "" |}
      {| xl_info := 64; xl_len := 30; xl_data := 1000 |}.
Proof.
  apply (flag_bits_ignored sample_consts Btree
           {| heap := mem_of_bytes 1000 split_payload; buf := "" |}
           {| xl_info := 64; xl_len := 30; xl_data := 1000 |} 8).
  reflexivity.
Defined.

Lemma describe_all_text {C : XlogConsts} records : forall w,
  describe_all w records =
  {| heap := heap w;
     buf := buf w
            ++ String.concat ""
                 (map (fun ar => rm_text (fst ar) (heap w) (snd ar))
                    records) |}.
Proof.
  induction records as [|[am r] records IH]; intros w.
  - cbn. rewrite append_nil_r. now destruct w.
  - cbn [describe_all fold_left map fst snd].
    change (fold_left _ records ?x) with (describe_all x records).
    rewrite IH, rm_desc_text. cbn [heap buf]. f_equal.
    rewrite append_assoc. f_equal.
    destruct records; cbn; [now rewrite append_nil_r | reflexivity].
Qed.

(** X6.  The identify routines do not mask their argument: when no
    case label carries a flag bit, an info byte with a bit of
    [XLR_INFO_MASK] set gets no name. *)
Theorem identify_wants_masked_tag (C : XlogConsts) (am : AccessMethod)
  (info : Z) :
  Forall (fun label => Z.land label XLR_INFO_MASK = 0) (rm_labels am) ->
  Z.land info XLR_INFO_MASK <> 0 ->
  rm_identify am info = None.
Proof.
  intros Hlabels Hflag. apply rm_identify_None. intros Hin.
  rewrite Forall_forall in Hlabels. now apply Hflag, Hlabels.
Qed.

Lemma identify_wants_masked_tag_witness :
  @rm_identify sample_consts Btree 1 = None.
Proof.
  apply (identify_wants_masked_tag sample_consts Btree 1).
  - cbn. repeat constructor.
  - cbn. discriminate.
Defined.

Lemma string_forall_impl (p q : ascii -> bool) (s : string) :
  (forall c, p c = true -> q c = true) ->
  string_forall p s = true -> string_forall q s = true.
Proof.
  intros Hpq. induction s as [|c s IH]; simpl; [reflexivity|].
  intros H. apply andb_prop in H as [Hc Hs].
  now rewrite (Hpq c Hc), (IH Hs).
Qed.

Lemma is_digit_printable c : is_digit c = true -> printable c = true.
Proof.
  destruct c as [[|] [|] [|] [|] [|] [|] [|] [|]]; cbn; intros H;
    first [discriminate H | reflexivity].
Qed.

Lemma dec_printable n : string_forall printable (dec n) = true.
Proof.
  apply (string_forall_impl is_digit); [apply is_digit_printable|].
  apply dec_digits.
Qed.

Lemma fmt_u_printable z : string_forall printable (fmt_u z) = true.
Proof. apply dec_printable. Qed.

Lemma fmt_d_printable z : string_forall printable (fmt_d z) = true.
Proof.
  unfold fmt_d. destruct (sint32 z <? 0).
  - rewrite string_forall_app, dec_printable. reflexivity.
  - apply dec_printable.
Qed.

Lemma fmt_node_printable n : string_forall printable (fmt_node n) = true.
Proof.
  unfold fmt_node. rewrite !string_forall_app, !fmt_u_printable. reflexivity.
Qed.

Lemma fmt_tid_printable p : string_forall printable (fmt_tid p) = true.
Proof.
  unfold fmt_tid. rewrite !string_forall_app, !fmt_u_printable. reflexivity.
Qed.

Lemma format_printable r : string_forall printable (format r) = true.
Proof.
  destruct r; cbn [format];
    repeat first
      [ rewrite string_forall_app
      | rewrite fmt_u_printable
      | rewrite fmt_d_printable
      | rewrite fmt_node_printable
      | rewrite fmt_tid_printable ];
    reflexivity.
Qed.

(** X8.  The text appended for a record consists of visible ASCII
    characters and blanks only (codes 32 to 126): it holds no line break
    and no control character. *)
Theorem text_printable (C : XlogConsts) (am : AccessMethod) (m : Mem)
  (record : XLogRecord) :
  string_forall printable (rm_text am m record) = true.
Proof.
  rewrite rm_text_format. destruct (rm_decode am m record).
  - apply format_printable.
  - reflexivity.
Qed.

Lemma string_length_app (s t : string) :
  String.length (s ++ t) = (String.length s + String.length t)%nat.
Proof. induction s as [|c s IH]; simpl; [reflexivity | now rewrite IH]. Qed.

Lemma string_of_uint_length d :
  String.length (NilEmpty.string_of_uint d) = Decimal.nb_digits d.
Proof. induction d; simpl; congruence. Qed.

Lemma of_uint_acc_lower d acc :
  Z.pos acc * 10 ^ Z.of_nat (Decimal.nb_digits d)
  <= Z.pos (Pos.of_uint_acc d acc).
Proof.
  revert acc. induction d; intros acc; cbn [Pos.of_uint_acc Decimal.nb_digits];
    [rewrite Z.pow_0_r; lia | ..];
    rewrite Nat2Z.inj_succ, Z.pow_succ_r by lia;
    (etransitivity; [|apply IHd]);
    rewrite ?Pos2Z.inj_add, Pos2Z.inj_mul;
    assert (0 <= 10 ^ Z.of_nat (Decimal.nb_digits d))
      by (apply Z.pow_nonneg; lia);
    nia.
Qed.

Lemma nzhead_not_D0 d d' : Decimal.nzhead d <> Decimal.D0 d'.
Proof. induction d; cbn; congruence. Qed.

Lemma to_uint_digits_bound n :
  (n < 4294967296)%N -> (Decimal.nb_digits (N.to_uint n) <= 10)%nat.
Proof.
  intros Hn. destruct n as [|p]; [cbn; lia|].
  pose proof (DecimalN.Unsigned.of_to (N.pos p)) as Hof.
  pose proof (DecimalN.Unsigned.to_of (N.to_uint (N.pos p))) as Hto.
  rewrite Hof in Hto.
  pose proof (DecimalPos.Unsigned.to_uint_nonzero p) as Hnz.
  change (N.to_uint (N.pos p)) with (Pos.to_uint p) in *.
  destruct (Pos.to_uint p) as [|d|d|d|d|d|d|d|d|d|d] eqn:E;
    [cbn; lia | | ..].
  1: { exfalso. unfold Decimal.unorm in Hto. cbn [Decimal.nzhead] in Hto.
       destruct (Decimal.nzhead d) eqn:Hd;
         try (rewrite <- Hd in Hto; symmetry in Hto;
              exact (nzhead_not_D0 _ _ Hto)).
       apply Hnz. rewrite Hto. reflexivity. }
  all: cbn [Decimal.nb_digits];
    unfold N.of_uint in Hof; cbn [Pos.of_uint] in Hof;
    injection Hof as Hof;
    match type of Hof with
    | Pos.of_uint_acc ?d ?k = _ =>
        pose proof (of_uint_acc_lower d k) as L; rewrite Hof in L;
        assert (Hp : Z.pos p < 4294967296) by lia;
        destruct (le_lt_dec 10 (Decimal.nb_digits d)) as [Hbig|]; [|lia];
        exfalso;
        assert (10 ^ 10 <= 10 ^ Z.of_nat (Decimal.nb_digits d))
          by (apply Z.pow_le_mono_r; lia);
        change (10 ^ 10) with 10000000000 in *; nia
    end.
Qed.

Lemma dec_length n :
  (n < 4294967296)%N -> (String.length (dec n) <= 10)%nat.
Proof.
  intros H. unfold dec. rewrite string_of_uint_length.
  now apply to_uint_digits_bound.
Qed.

Lemma fmt_u_length z : (String.length (fmt_u z) <= 10)%nat.
Proof.
  unfold fmt_u, uint32. apply dec_length.
  pose proof (Z.mod_pos_bound z (2 ^ 32) eq_refl) as H.
  change (2 ^ 32) with 4294967296 in *. lia.
Qed.

Lemma fmt_d_length z : (String.length (fmt_d z) <= 11)%nat.
Proof.
  unfold fmt_d, sint32, uint32.
  pose proof (Z.mod_pos_bound z (2 ^ 32) eq_refl) as H.
  change (2 ^ 32) with 4294967296 in *. change (2 ^ 31) with 2147483648.
  set (u := z mod 4294967296) in *.
  destruct (u <? 2147483648) eqn:E1.
  - apply Z.ltb_lt in E1. destruct (u <? 0) eqn:E2;
      [apply Z.ltb_lt in E2; lia|].
    assert (String.length (dec (Z.to_N u)) <= 10)%nat
      by (apply dec_length; lia). lia.
  - apply Z.ltb_ge in E1.
    destruct (u - 4294967296 <? 0) eqn:E2; [|apply Z.ltb_ge in E2; lia].
    rewrite string_length_app.
    assert (String.length (dec (Z.to_N (- (u - 4294967296)))) <= 10)%nat
      by (apply dec_length; lia).
    cbn [String.length]. lia.
Qed.

(** The longest rendering is the one of an unlink-page record. *)
Lemma format_length r : (String.length (format r) <= 192)%nat.
Proof.
  destruct r; cbn [format]; unfold fmt_node, fmt_tid;
    rewrite !string_length_app; cbn [String.length];
    repeat match goal with
           | |- context [String.length (fmt_u ?z)] =>
               let H := fresh "L" in
               pose proof (fmt_u_length z) as H;
               generalize dependent (String.length (fmt_u z)); intros
           | |- context [String.length (fmt_d ?z)] =>
               let H := fresh "L" in
               pose proof (fmt_d_length z) as H;
               generalize dependent (String.length (fmt_d z)); intros
           end;
    lia.
Qed.

(** X7.  Describing a run of records into one buffer leaves memory as it
    was and appends the texts of the records in order, each the text the
    record gets on its own. *)
Theorem describe_all_appends (C : XlogConsts) (w : World)
  (records : list (AccessMethod * XLogRecord)) :
  heap (describe_all w records) = heap w
  /\ buf (describe_all w records)
     = buf w
       ++ String.concat ""
            (map (fun ar => rm_text (fst ar) (heap w) (snd ar)) records).
Proof. rewrite describe_all_text. cbn. auto. Qed.

(** X9.  The text appended for one record is at most 192 characters
    long. *)
Theorem text_length_bound (C : XlogConsts) (am : AccessMethod) (m : Mem)
  (record : XLogRecord) :
  (String.length (rm_text am m record) <= 192)%nat.
Proof.
  rewrite rm_text_format. destruct (rm_decode am m record).
  - apply format_length.
  - cbn. lia.
Qed.

(** * Further results on [DefineAggregate]

    A small program logic for the runs of the command: [post P x] is
    proved by walking through the code of [x], one statement at a time. *)

Import aggregatecmds.

Section Logic.

Context {E : Env}.
Local Open Scope agg_scope.

Lemma post_ret {A} (P : A -> Prop) a : P a -> post P (ret a).
Proof.
  intros H. split; [discriminate|]. now intros w a' [= _ <-].
Qed.

Lemma post_error {A} (P : A -> Prop) c m : post P (ereport_ERROR c m).
Proof. split; [discriminate|]. intros w a [=]. Qed.

Lemma post_undefined {A} (P : A -> Prop) f :
  f <> OutOfBounds -> post P (undefined f).
Proof.
  intros H. split; [intros [= ->]; now apply H|]. intros w a [=].
Qed.

Lemma post_call {A} (P : A -> Prop) (r : Result A) :
  (forall a, r = inl a -> P a) -> post P (call r).
Proof.
  intros H. destruct r as [a|e]; cbn.
  - apply post_ret. now apply H.
  - split; [discriminate|]. intros w a [=].
Qed.

Lemma post_warning (P : unit -> Prop) c m :
  P tt -> post P (ereport_WARNING c m).
Proof.
  intros H. split; [discriminate|]. now intros w [] [= _].
Qed.

Lemma post_bind {A B} (P : B -> Prop) (x : M A) (k : A -> M B) :
  no_oob x ->
  (forall w a, x = (w, Ok a) -> post P (k a)) ->
  post P (bind x k).
Proof.
  intros Hx Hk. destruct x as [w [a|r|f]]; cbn.
  - destruct (Hk w a eq_refl) as [Hn Hp].
    destruct (k a) as [w' r'] eqn:Ek. split.
    + exact Hn.
    + intros w'' b [= _ ->]. now apply (Hp w').
  - split; [discriminate|]. intros w' b [=].
  - split; [|intros w' b [=]].
    intros [= ->]. now apply Hx.
Qed.

Lemma post_bind_known {A B} (P : B -> Prop) w (a : A) (k : A -> M B) :
  post P (k a) -> post P (bind (w, Ok a) k).
Proof.
  intros H. apply post_bind; [discriminate|].
  now intros w' a' [= _ <-].
Qed.

Lemma post_bind_post {A B} (Q : A -> Prop) (P : B -> Prop) (x : M A)
  (k : A -> M B) :
  post Q x ->
  (forall w a, x = (w, Ok a) -> Q a -> post P (k a)) ->
  post P (bind x k).
Proof.
  intros [Hn Hq] Hk. apply post_bind; [exact Hn|].
  intros w a Hx. apply (Hk w a Hx). now apply (Hq w).
Qed.

Lemma post_mono {A} (P Q : A -> Prop) (x : M A) :
  (forall a, P a -> Q a) -> post P x -> post Q x.
Proof. intros H [Hn Hp]. split; [exact Hn|]. eauto. Qed.

Lemma post_no_oob {A} (P : A -> Prop) (x : M A) : post P x -> no_oob x.
Proof. now intros [H _]. Qed.

Lemma post_known {A} (P : A -> Prop) (x : M A) w a :
  x = (w, Ok a) -> P a -> post P x.
Proof.
  intros -> H. split; [discriminate|]. now intros w' a' [= _ <-].
Qed.

Lemma no_oob_cells_of l : no_oob (cells_of l).
Proof. destruct l as [[]|]; discriminate. Qed.

Lemma no_oob_list_length l : no_oob (list_length l).
Proof. destruct l as [[]|]; discriminate. Qed.

Lemma no_oob_linitial l : no_oob (linitial l).
Proof. destruct l as [[[|? ?]| | |]|]; discriminate. Qed.

Lemma no_oob_lsecond l : no_oob (lsecond l).
Proof. destruct l as [[[|? [|? ?]]| | |]|]; discriminate. Qed.

Lemma no_oob_IsA_List p : no_oob (IsA_List p).
Proof. destruct p as [[]|]; discriminate. Qed.

Lemma no_oob_as_TypeName p : no_oob (as_TypeName p).
Proof. destruct p as [[]|]; discriminate. Qed.

Lemma no_oob_as_DefElem p : no_oob (as_DefElem p).
Proof. destruct p as [[]|]; discriminate. Qed.

Lemma no_oob_call {A} (r : Result A) : no_oob (call r).
Proof. destruct r; discriminate. Qed.

End Logic.

Ltac step :=
  lazymatch goal with
  | |- post _ (bind (_, Ok _) _) => apply post_bind_known; cbv beta
  | |- no_oob (_, Ok _) => discriminate
  | |- post _ (bind _ _) =>
      apply post_bind; [ | intros ? ? ? ]
  | |- post _ (ret _) => apply post_ret
  | |- post _ (ereport_ERROR _ _) => apply post_error
  | |- post _ (elog_ERROR _) => apply post_error
  | |- post _ (ereport_WARNING _ _) => apply post_warning
  | |- post _ (undefined _) => apply post_undefined; discriminate
  | |- post _ (call _) => apply post_call; intros ? ?
  | |- post _ (if ?c then _ else _) => destruct c eqn:?
  | |- post _ (match ?x with _ => _ end) => destruct x eqn:?
  | |- no_oob (cells_of _) => apply no_oob_cells_of
  | |- no_oob (list_length _) => apply no_oob_list_length
  | |- no_oob (linitial _) => apply no_oob_linitial
  | |- no_oob (lsecond _) => apply no_oob_lsecond
  | |- no_oob (IsA_List _) => apply no_oob_IsA_List
  | |- no_oob (as_TypeName _) => apply no_oob_as_TypeName
  | |- no_oob (as_DefElem _) => apply no_oob_as_DefElem
  | |- no_oob (call _) => apply no_oob_call
  | |- no_oob _ => apply (post_no_oob (fun _ => True))
  end.

Section Arrays.

Context {E : Env}.
Local Open Scope agg_scope.

Lemma firstn_length_app {A : Type} (l1 l2 : list A) :
  firstn (List.length l1) (l1 ++ l2) = l1.
Proof. induction l1 as [|a l1 IH]; cbn; [now destruct l2 | now rewrite IH]. Qed.

Lemma skipn_S_length_app {A : Type} (l1 l2 : list A) (x : A) :
  skipn (S (List.length l1)) (l1 ++ x :: l2) = l2.
Proof. induction l1 as [|a l1 IH]; cbn; [reflexivity | exact IH]. Qed.

Lemma store_next (ws : list Z) (k : nat) (v : Z) :
  store (Some (map Some ws ++ repeat None (S k))%list) (List.length ws) v
  = ret (Some (map Some (ws ++ [v]) ++ repeat None k)%list).
Proof.
  unfold store.
  assert (L : (List.length ws
               <? List.length (map Some ws ++ repeat (@None Z) (S k)))%nat
              = true).
  { apply Nat.ltb_lt. rewrite length_app, length_map, repeat_length. lia. }
  rewrite L. unfold ret. do 3 f_equal.
  rewrite <- (length_map (@Some Z) ws).
  cbn [repeat]. rewrite firstn_length_app, skipn_S_length_app.
  rewrite map_app, <- app_assoc. reflexivity.
Qed.

End Arrays.

Ltac ret_eqs :=
  repeat match goal with
         | H : ret _ = (_, Ok _) |- _ =>
             unfold ret in H; injection H as ? ?; subst
         end.

Ltac use_known :=
  match goal with
  | H : ?x = (_, Ok _) |- post _ (bind ?x _) =>
      rewrite H; apply post_bind_known; cbv beta
  end.

Ltac bool_facts :=
  repeat match goal with
         | H : negb _ = false |- _ => apply negb_false_iff in H
         | H : negb _ = true |- _ => apply negb_true_iff in H
         | H : (_ =? _) = true |- _ => apply Z.eqb_eq in H
         end.

Ltac known_ifs :=
  repeat match goal with
         | H : (if ?c then _ else _) = (_, Ok _) |- _ =>
             destruct c eqn:?; try (now inversion H)
         end;
  ret_eqs.

Ltac run :=
  repeat first [ rewrite store_next | use_known | step ]; trivial; ret_eqs.

Section Nodes.

Context {E : Env}.
Local Open Scope agg_scope.

(** What a successful read of a node tells about the node. *)
Lemma IsA_List_true p w :
  IsA_List p = (w, Ok true) -> exists cells, p = Some (T_List cells).
Proof. destruct p as [[cells| | |]|]; cbn; intros [=]. now exists cells. Qed.

Lemma linitial_Ok p w x :
  linitial p = (w, Ok x) -> hd None (list_cells p) = x.
Proof.
  destruct p as [[[|first rest]| | |]|]; cbn; intros [=]; now subst.
Qed.

Lemma lsecond_Ok p w x :
  lsecond p = (w, Ok x) -> nth 1 (list_cells p) None = x.
Proof.
  destruct p as [[[|first [|second rest]]| | |]|]; cbn; intros [=];
    now subst.
Qed.

Lemma cells_of_Ok p w cells :
  cells_of p = (w, Ok cells) -> list_cells p = cells.
Proof. destruct p as [[cs| | |]|]; cbn; intros [=]; now subst. Qed.

Lemma as_TypeName_Ok p w t :
  as_TypeName p = (w, Ok t) -> p = Some (T_TypeName t).
Proof. destruct p as [[cs|t'| |]|]; cbn; intros [=]; now subst. Qed.

Lemma call_Ok {A} (r : Result A) w a : call r = (w, Ok a) -> r = inl a.
Proof. destruct r; cbn; now intros [= _ <-]. Qed.

End Nodes.

Ltac node_facts :=
  repeat match goal with
         | H : IsA_List _ = (_, Ok true) |- _ =>
             apply IsA_List_true in H; destruct H as [? ->]
         | H : linitial _ = (_, Ok _) |- _ => apply linitial_Ok in H
         | H : lsecond _ = (_, Ok _) |- _ => apply lsecond_Ok in H
         | H : cells_of _ = (_, Ok _) |- _ => apply cells_of_Ok in H
         | H : as_TypeName _ = (_, Ok _) |- _ => apply as_TypeName_Ok in H
         | H : call _ = (_, Ok _) |- _ => apply call_Ok in H
         end.

Ltac settle_type :=
  node_facts; cbn [list_cells] in *; subst;
  unfold direct_type, ordered_type; cbn [list_cells];
  repeat match goal with
         | H : hd None _ = _ |- _ => rewrite H; clear H
         end;
  cbn [list_cells resolved];
  repeat match goal with
         | H : typenameTypeId _ = inl _ |- _ => rewrite H; clear H
         end;
  known_ifs; reflexivity.

Section Loops.

Context {E : Env}.
Local Open Scope agg_scope.

Lemma filling_stored (ws : list Z) (v : Z) (k : nat) (vt ovt : Z) :
  filling {| aggArgTypes := Some (map Some (ws ++ [v]) ++ repeat None k)%list;
             next_index := S (List.length ws);
             variadic_type := vt; ord_variadic_type := ovt |}
    (ws ++ [v]) k.
Proof.
  split; cbn; [reflexivity|]. rewrite length_app. cbn. lia.
Qed.

Lemma scan_direct_arg_post st cell ws k :
  filling st ws (S k) ->
  variadic_ok (variadic_type st) ->
  post (fun st' => (exists v, filling st' (ws ++ [v]) k
                              /\ direct_type cell = Some v)
                   /\ variadic_ok (variadic_type st')
                   /\ ord_variadic_type st' = ord_variadic_type st)
    (scan_direct_arg st cell).
Proof.
  intros [Ha Hi] Hv. unfold scan_direct_arg. rewrite Ha, Hi.
  run; (split; [eexists; split; [apply filling_stored|]
               |split; [|reflexivity]; cbn [variadic_type];
                unfold variadic_ok; known_ifs; bool_facts; auto]).
  all: settle_type.
Qed.

Lemma scan_ordered_arg_post st cell ws k :
  filling st ws (S k) ->
  ord_variadic_ok (ord_variadic_type st) ->
  post (fun st' => (exists v, filling st' (ws ++ [v]) k
                              /\ ordered_type cell = Some v)
                   /\ variadic_type st' = variadic_type st
                   /\ ord_variadic_ok (ord_variadic_type st'))
    (scan_ordered_arg st cell).
Proof.
  intros [Ha Hi] Hv. unfold scan_ordered_arg. rewrite Ha, Hi.
  run; (split; [eexists; split; [apply filling_stored|]
               |split; [reflexivity|]; cbn [ord_variadic_type];
                unfold ord_variadic_ok; known_ifs; bool_facts; auto]).
  all: settle_type.
Qed.

Lemma scan_direct_args_post cells : forall st ws k,
  filling st ws (List.length cells + k) ->
  variadic_ok (variadic_type st) ->
  post (fun st' => (exists vs, map direct_type cells = map Some vs
                               /\ filling st' (ws ++ vs) k)
                   /\ variadic_ok (variadic_type st')
                   /\ ord_variadic_type st' = ord_variadic_type st)
    (scan_direct_args st cells).
Proof.
  induction cells as [|cell cells IH]; intros st ws k Hf Hv;
    cbn [scan_direct_args].
  - apply post_ret. split; [|now split].
    exists []. rewrite app_nil_r. now split.
  - eapply post_bind_post; [apply (scan_direct_arg_post st cell ws _ Hf Hv)|].
    intros w st' _ ((v & Hf' & Hcell) & Hv' & Ho').
    eapply post_mono; [|apply (IH st' (ws ++ [v])%list k Hf' Hv')].
    intros st'' ((vs & Hvs & Hf'') & Hv'' & Ho''). split; [|split].
    + exists (v :: vs). split.
      * cbn [map]. now rewrite Hcell, Hvs.
      * now rewrite <- app_assoc in Hf''.
    + exact Hv''.
    + congruence.
Qed.

Lemma scan_ordered_args_post cells : forall st ws k,
  filling st ws (List.length cells + k) ->
  ord_variadic_ok (ord_variadic_type st) ->
  post (fun st' => (exists vs, map ordered_type cells = map Some vs
                               /\ filling st' (ws ++ vs) k)
                   /\ variadic_type st' = variadic_type st
                   /\ ord_variadic_ok (ord_variadic_type st'))
    (scan_ordered_args st cells).
Proof.
  induction cells as [|cell cells IH]; intros st ws k Hf Hv;
    cbn [scan_ordered_args].
  - apply post_ret. split; [|now split].
    exists []. rewrite app_nil_r. now split.
  - eapply post_bind_post; [apply (scan_ordered_arg_post st cell ws _ Hf Hv)|].
    intros w st' _ ((v & Hf' & Hcell) & Hv' & Ho').
    eapply post_mono; [|apply (IH st' (ws ++ [v])%list k Hf' Ho')].
    intros st'' ((vs & Hvs & Hf'') & Hv'' & Ho''). split; [|split].
    + exists (v :: vs). split.
      * cbn [map]. now rewrite Hcell, Hvs.
      * now rewrite <- app_assoc in Hf''.
    + congruence.
    + exact Ho''.
Qed.

Lemma check_variadic_ordered_post args vt :
  variadic_ok vt ->
  post (fun _ => ord_variadic_ok vt) (check_variadic_ordered args vt).
Proof.
  intros Hv. unfold check_variadic_ordered, ord_variadic_ok.
  run; known_ifs; bool_facts; auto.
Qed.

End Loops.

Section InputTypes.

Context {E : Env}.
Local Open Scope agg_scope.

Lemma list_length_Ok l w n :
  list_length l = (w, Ok n) ->
  exists cells, cells_of l = ([], Ok cells)
                /\ n = Z.of_nat (List.length cells).
Proof.
  unfold list_length. destruct l as [[cells|t|d|]|]; cbn; intros [= _ <-];
    eexists; split; reflexivity.
Qed.

Lemma list_length_known l cells :
  cells_of l = ([], Ok cells) ->
  list_length l = ([], Ok (Z.of_nat (List.length cells))).
Proof. unfold list_length. now intros ->. Qed.

Lemma palloc_Oids_nat n : palloc_Oids (Z.of_nat n) = Some (repeat None n).
Proof. unfold palloc_Oids. now rewrite Nat2Z.id. Qed.

Lemma variadic_ok_Invalid : variadic_ok InvalidOid.
Proof. now left. Qed.

Lemma ord_variadic_ok_Invalid : ord_variadic_ok InvalidOid.
Proof. now left. Qed.

Lemma map_Some_length {A B : Type} (f : A -> option B) (l : list A)
  (vs : list B) :
  map f l = map Some vs -> List.length vs = List.length l.
Proof.
  intros H. apply (f_equal (@List.length _)) in H.
  now rewrite !length_map in H.
Qed.

Lemma input_datatypes_post args oldstyle isOrderedSet o :
  post (types_stored args oldstyle isOrderedSet o)
    (input_datatypes args oldstyle isOrderedSet o).
Proof.
  unfold input_datatypes, types_stored. destruct oldstyle.
  - change (palloc_Oids 1) with (Some (map Some [] ++ repeat (@None Z) 1)%list).
    change 0%nat with (List.length (@nil Z)).
    run; (split; [|cbn; auto using variadic_ok_Invalid,
                     ord_variadic_ok_Invalid]).
    + left. cbn. auto.
    + right. node_facts. eexists _, _. cbn. eauto.
  - step; [run|]. clear H. step; [run|]. rename a0 into direct.
    match goal with
    | H : linitial args = (_, Ok direct) |- _ =>
        pose proof (linitial_Ok _ _ _ H) as Hdirect
    end.
    step; [run|]. apply list_length_Ok in H0 as (dcells & Hd & ->).
    pose proof (cells_of_Ok _ _ _ Hd) as Hdcells.
    assert (Hdargs : direct_arguments args = dcells).
    { unfold direct_arguments. now rewrite Hdirect. }
    apply (post_bind_post
             (fun sized : option (list (option Z)) * Z =>
                exists no : nat,
                  fst sized = Some (repeat None (List.length dcells + no))
                  /\ snd sized = Z.of_nat no
                  /\ (isOrderedSet = false -> no = 0%nat)
                  /\ (isOrderedSet = true ->
                      exists w ordered ocells,
                        lsecond args = (w, Ok ordered)
                        /\ cells_of ordered = ([], Ok ocells)
                        /\ no = List.length ocells))).
    { pose proof (list_length_known _ _ Hd) as Hdl.
      destruct isOrderedSet.
      - use_known. use_known. step; [run|]. step; [run|].
        apply list_length_Ok in H1 as (ocells & Ho & ->).
        pose proof (list_length_known _ _ Ho) as Hol.
        cbv zeta. use_known. use_known. apply post_ret.
        exists (List.length ocells). cbn [fst snd].
        rewrite <- Nat2Z.inj_add, palloc_Oids_nat.
        repeat split; try discriminate. intros _. now exists w2, a0, ocells.
      - apply post_ret. exists 0%nat. cbn [fst snd].
        rewrite palloc_Oids_nat, Nat.add_0_r.
        repeat split; try discriminate. }
    intros w2 sized _ (no & Hfst & Hsnd & Hno0 & Hord).
    use_known. rewrite Hd. apply post_bind_known. cbv beta.
    assert (Hfill : filling
                      {| aggArgTypes := fst sized; next_index := 0;
                         variadic_type := InvalidOid;
                         ord_variadic_type := InvalidOid |}
                      [] (List.length dcells + no)).
    { split; cbn; [exact Hfst | reflexivity]. }
    eapply post_bind_post;
      [apply (scan_direct_args_post _ _ _ _ Hfill variadic_ok_Invalid)|].
    cbn [app ord_variadic_type].
    intros w3 st _ ((ds & Hds & Hfs) & Hvar & Hovar).
    destruct isOrderedSet.
    + destruct (Hord eq_refl) as (wo & ordered & ocells & Hsec & Hoc & ->).
      assert (Hoargs : ordered_arguments true args = ocells).
      { unfold ordered_arguments.
        rewrite (lsecond_Ok _ _ _ Hsec). exact (cells_of_Ok _ _ _ Hoc). }
      apply (post_bind_post
               (fun st' => (exists os, map ordered_type ocells = map Some os
                                       /\ filling st' (ds ++ os) 0)
                           /\ variadic_ok (variadic_type st')
                           /\ ord_variadic_ok (ord_variadic_type st')
                           /\ ord_variadic_ok (variadic_type st'))).
      { eapply post_bind_post;
          [apply (check_variadic_ordered_post _ _ Hvar)|].
        intros wc [] _ Hchecked. use_known. use_known.
        eapply post_mono;
          [|apply (scan_ordered_args_post ocells st ds 0);
            [now rewrite Nat.add_0_r
            |rewrite Hovar; apply ord_variadic_ok_Invalid]].
        intros st' (Hos & Hsame & Ho'). rewrite Hsame. auto. }
      intros w4 st' _ ((os & Hos & [Harr _]) & Hv' & Ho' & Hvo').
      apply post_ret. split; [|auto].
      exists ds, os. cbn [res_state res_numArgs res_numOrderedArgs].
      rewrite Hdargs, Hoargs, Harr, Hsnd.
      rewrite (map_Some_length _ _ _ Hds), (map_Some_length _ _ _ Hos).
      cbn [repeat]. rewrite app_nil_r. auto.
    + rewrite (Hno0 eq_refl) in *. destruct Hfs as [Harr _].
      step; [run|]. ret_eqs. step.
      cbn [res_state res_numArgs res_numOrderedArgs].
      split; [|rewrite Hovar; repeat split;
                auto using ord_variadic_ok_Invalid; discriminate].
      exists ds, []. unfold ordered_arguments.
      rewrite Hdargs, Harr, Hsnd, (map_Some_length _ _ _ Hds).
      cbn [repeat map List.length]. rewrite !app_nil_r. auto.
Qed.

End InputTypes.

Section Whole.

Context {E : Env}.
Local Open Scope agg_scope.

Lemma scan_DefElem_no_oob o defel : no_oob (scan_DefElem o defel).
Proof. step. unfold scan_DefElem. run. Qed.

Lemma scan_parameters_no_oob cells : forall o,
  no_oob (scan_parameters o cells).
Proof.
  induction cells as [|cell cells IH]; intros o; cbn [scan_parameters].
  - discriminate.
  - apply (post_no_oob (fun _ => True)). step; [step|].
    step; [apply scan_DefElem_no_oob|].
    split; [apply IH | trivial].
Qed.

Lemma transition_type_post isOrderedSet o :
  post (transition_checked isOrderedSet o) (transition_type isOrderedSet o).
Proof.
  unfold transition_type, transition_checked.
  destruct (transType o) as [t|]; [|now apply post_ret].
  step; [run|]. apply call_Ok in H.
  step; [run|]. step. cbn [fst snd]. split; [exact H|]. split; [reflexivity|].
  intros -> Hp Hpoly. cbn [negb] in H0.
  apply Z.eqb_eq in Hp. rewrite Hp, Hpoly in H0. cbn in H0.
  destruct ((a =? INTERNALOID) && superuser) eqn:Hs; [|discriminate H0].
  apply andb_prop in Hs as [Hi Hsu]. apply Z.eqb_eq in Hi. now split.
Qed.

Lemma check_initval_post o transTypeId :
  post (fun _ => initval_checked o transTypeId)
    (check_initval o transTypeId
       (match transType o with
        | Some _ => Some (get_typtype transTypeId)
        | None => None
        end)).
Proof.
  unfold check_initval, initval_checked.
  destruct (transType o) as [t|]; [|apply post_ret; discriminate].
  destruct (initval o) as [iv|]; [|apply post_ret; discriminate].
  destruct (negb (get_typtype transTypeId =? TYPTYPE_PSEUDO)) eqn:Hp.
  - step; [run|]. apply call_Ok in H.
    split; [apply no_oob_call|]. intros w0 [] Hc. apply call_Ok in Hc.
    intros t' iv' [= <-] [= <-] _. now exists a.
  - apply post_ret. intros t' iv' _ _ Hne.
    apply negb_false_iff, Z.eqb_eq in Hp. contradiction.
Qed.

Lemma DefineAggregate_call_post name args oldstyle parameters :
  post (fun a => types_filled args oldstyle a /\ variadic_types_checked a
                  /\ plain_requirements a)
    (DefineAggregate_call name args oldstyle parameters).
Proof.
  unfold DefineAggregate_call.
  step; [run|]. step; [run|]. step; [run|].
  step; [step; run|]. rename a2 into isOrderedSet. clear H H0 H1 H2.
  step; [run|]. step; [apply scan_parameters_no_oob|].
  rename a3 into o. clear H0.
  step; [run|].
  eapply post_bind_post; [apply input_datatypes_post|].
  intros wa ar _ Har.
  eapply post_bind_post; [apply transition_type_post|].
  intros wt tt_ _ Htt.
  assert (Hsnd : snd tt_ = match transType o with
                           | Some _ => Some (get_typtype (fst tt_))
                           | None => None
                           end).
  { unfold transition_checked in Htt. destruct (transType o).
    - apply Htt.
    - now rewrite Htt. }
  rewrite Hsnd.
  eapply post_bind_post; [apply check_initval_post|].
  intros wi [] _ Hiv. apply post_ret.
  destruct Har as (Hfilled & Hvar).
  split; [|split; [exact Hvar|]].
  { unfold types_filled. cbn [cc_aggArgTypes cc_numArgs cc_numOrderedArgs
      cc_isOrderedSet]. destruct oldstyle; [|exact Hfilled].
    destruct Hfilled as [Hnone | (bt & typ & _ & Hrest)];
      [now left | right; now exists bt, typ]. }
  intros Hplain. { cbn [cc_isOrderedSet] in Hplain. subst isOrderedSet.
    cbn [negb] in H0.
    unfold transition_checked in Htt. unfold initval_checked in Hiv.
    destruct (transType o) as [t|] eqn:Ht; [|discriminate H0].
    destruct Htt as (Hid & _ & Hpseudo).
    cbn [cc_transfuncName cc_transTypeId cc_initval].
    split; [|split; [|split]].
    + destruct (transfuncName o); [discriminate H0 | discriminate].
    + now exists t.
    + now apply Hpseudo.
    + intros iv Hi Hne. now apply (Hiv t iv). }
Qed.

(** [DefineAggregate] itself: the catalog call comes last. *)
Lemma DefineAggregate_no_oob name args oldstyle parameters :
  no_oob (DefineAggregate name args oldstyle parameters).
Proof.
  apply (post_no_oob (fun _ => True)). unfold DefineAggregate.
  step; [apply (post_no_oob _ _ (DefineAggregate_call_post _ _ _ _))|].
  run.
Qed.

End Whole.

Section Attributes.

Context {E : Env}.
Local Open Scope agg_scope.

Lemma bind_assoc {A B D} (x : M A) (f : A -> M B) (g : B -> M D) :
  bind (bind x f) g = bind x (fun a => bind (f a) g).
Proof.
  destruct x as [w [a|r|u]]; cbn; [|reflexivity..].
  destruct (f a) as [w' [b|r|u]]; cbn; [|reflexivity..].
  destruct (g b) as [w'' o]. now rewrite app_assoc.
Qed.

Lemma snd_bind_l {A B} (x y : M A) (k : A -> M B) :
  snd x = snd y -> snd (bind x k) = snd (bind y k).
Proof.
  destruct x as [w [a|r|u]], y as [w' [a'|r'|u']]; cbn; intros [=]; subst;
    try reflexivity.
  now destruct (k a').
Qed.

Lemma snd_bind_r {A B} (x : M A) (k k' : A -> M B) :
  (forall a, snd (k a) = snd (k' a)) -> snd (bind x k) = snd (bind x k').
Proof.
  intros H. destruct x as [w [a|r|u]]; cbn; try reflexivity.
  specialize (H a). now destruct (k a), (k' a).
Qed.

Lemma snd_bind_ret {A B} (a : A) (k : A -> M B) :
  snd (bind (ret a) k) = snd (k a).
Proof. cbn. now destruct (k a). Qed.

Lemma bind_ext {A B} (x : M A) (k k' : A -> M B) :
  (forall a, k a = k' a) -> bind x k = bind x k'.
Proof.
  intros H. destruct x as [w [a|r|u]]; cbn; try reflexivity.
  now rewrite H.
Qed.

Lemma scan_parameters_app cells1 : forall o cells2,
  scan_parameters o (cells1 ++ cells2)
  = bind (scan_parameters o cells1) (fun o' => scan_parameters o' cells2).
Proof.
  induction cells1 as [|cell cells1 IH]; intros o cells2.
  - cbn. now destruct (scan_parameters o cells2).
  - cbn [app scan_parameters]. rewrite bind_assoc.
    apply bind_ext. intros defel. rewrite bind_assoc.
    apply bind_ext. intros o'. apply IH.
Qed.

Lemma scan_DefElem_unrecognized o defel :
  unrecognized defel ->
  scan_DefElem o defel
  = ([{| report_code := ERRCODE_SYNTAX_ERROR;
         report_msg := "aggregate attribute " ++ dquote ++ defname defel
                       ++ dquote ++ " not recognized" |}], Ok o).
Proof.
  intros H. unfold scan_DefElem.
  rewrite !H by (cbn; tauto). reflexivity.
Qed.

Lemma scan_parameters_skip o cells1 defel cells2 :
  unrecognized defel ->
  snd (scan_parameters o (cells1 ++ Some (T_DefElem defel) :: cells2))
  = snd (scan_parameters o (cells1 ++ cells2)).
Proof.
  intros H. rewrite !scan_parameters_app. apply snd_bind_r. intros o'.
  cbn [scan_parameters as_DefElem]. unfold ret at 1. cbn [bind].
  rewrite (scan_DefElem_unrecognized o' defel H). cbn [bind].
  now destruct (scan_parameters o' cells2).
Qed.

End Attributes.

Section Command.

Context {E : Env}.
Local Open Scope agg_scope.

Lemma DefineAggregate_Ok name args oldstyle parameters w oid :
  DefineAggregate name args oldstyle parameters = (w, Ok oid) ->
  exists w' a,
    DefineAggregate_call name args oldstyle parameters = (w', Ok a)
    /\ AggregateCreate a = inl oid.
Proof.
  unfold DefineAggregate.
  destruct (DefineAggregate_call name args oldstyle parameters)
    as [w' [a|r|f]]; cbn; try discriminate.
  destruct (AggregateCreate a) as [oid'|r] eqn:Hc; cbn; intros [= _ <-].
  now exists w', a.
Qed.

Lemma DefineAggregate_handed (P : AggregateCreateArgs NameItem -> Prop)
  name args oldstyle parameters w oid :
  (forall w' a,
      DefineAggregate_call name args oldstyle parameters = (w', Ok a) ->
      types_filled args oldstyle a /\ variadic_types_checked a
      /\ plain_requirements a ->
      P a) ->
  DefineAggregate name args oldstyle parameters = (w, Ok oid) ->
  exists w' a,
    DefineAggregate_call name args oldstyle parameters = (w', Ok a)
    /\ AggregateCreate a = inl oid /\ P a.
Proof.
  intros HP H. apply DefineAggregate_Ok in H as (w' & a & Hcall & Hc).
  exists w', a. split; [exact Hcall|]. split; [exact Hc|].
  apply (HP w' a Hcall).
  exact (proj2 (DefineAggregate_call_post name args oldstyle parameters)
           w' a Hcall).
Qed.

(** X10. Whatever the command, [DefineAggregate] never writes outside the
    array of argument types it has allocated: the run ends normally, in
    an error report, or at a null or wrongly tagged node, but at no store
    past the end of [aggArgTypes]. *)
Theorem argument_type_stores_in_bounds (name : list NameItem)
  (args : Ptr) (oldstyle : bool) (parameters : Ptr) :
  snd (DefineAggregate name args oldstyle parameters)
  <> Undefined OutOfBounds.
Proof. apply DefineAggregate_no_oob. Qed.

(** X11. When [DefineAggregate] returns an Oid, it is the one
    [AggregateCreate] returned, and the array of argument types it was
    given holds the types of the command's arguments.  New style: cell
    by cell and in order, the type each direct argument resolves to
    ([ANYELEMENTOID] for a variadic [ANYARRAYOID]), followed by the type
    of each ordered argument of an ordered-set aggregate, [numArgs] and
    [numOrderedArgs] counting them.  Old style: [NULL] with both counts
    zero, or the one type a type name resolved to. *)
Theorem argument_types_filled (name : list NameItem) (args : Ptr)
  (oldstyle : bool) (parameters : Ptr) (w : list Report) (oid : Z) :
  DefineAggregate name args oldstyle parameters = (w, Ok oid) ->
  exists w' a,
    DefineAggregate_call name args oldstyle parameters = (w', Ok a)
    /\ AggregateCreate a = inl oid
    /\ types_filled args oldstyle a.
Proof. apply DefineAggregate_handed. tauto. Qed.

(** X12. When [DefineAggregate] returns an Oid, the variadic types it
    handed to [AggregateCreate] have passed its checks: each is
    [InvalidOid], [ANYOID] or a type with an element type, the one of the
    direct arguments possibly [ANYELEMENTOID] (written for [ANYARRAYOID])
    - but not for an ordered-set aggregate, where it has passed the
    array check a second time. *)
Theorem variadic_types_are_checked (name : list NameItem) (args : Ptr)
  (oldstyle : bool) (parameters : Ptr) (w : list Report) (oid : Z) :
  DefineAggregate name args oldstyle parameters = (w, Ok oid) ->
  exists w' a,
    DefineAggregate_call name args oldstyle parameters = (w', Ok a)
    /\ AggregateCreate a = inl oid
    /\ variadic_types_checked a.
Proof. apply DefineAggregate_handed. tauto. Qed.

(** X13. When [DefineAggregate] returns an Oid for an aggregate that is
    no ordered-set aggregate, a transition function was named, the
    transition type is the id some type name resolved to, a pseudo-type
    that is not polymorphic is [INTERNALOID] and the user a superuser,
    and an initial value given for a transition type that is no
    pseudo-type was accepted by that type's input function. *)
Theorem plain_aggregate_requirements (name : list NameItem) (args : Ptr)
  (oldstyle : bool) (parameters : Ptr) (w : list Report) (oid : Z) :
  DefineAggregate name args oldstyle parameters = (w, Ok oid) ->
  exists w' a,
    DefineAggregate_call name args oldstyle parameters = (w', Ok a)
    /\ AggregateCreate a = inl oid
    /\ plain_requirements a.
Proof. apply DefineAggregate_handed. tauto. Qed.

(** X14. An attribute whose name is none of the eleven the option loop
    knows changes nothing but the warnings: with it or without it in the
    parameter list, the command ends the same way, with the same Oid, the
    same error or at the same fault. *)
Theorem unrecognized_attribute_only_warns (name : list NameItem)
  (args : Ptr) (oldstyle : bool) (before after : list Ptr)
  (defel : DefElem) :
  unrecognized defel ->
  snd (DefineAggregate name args oldstyle
         (Some (T_List (before ++ Some (T_DefElem defel) :: after))))
  = snd (DefineAggregate name args oldstyle
           (Some (T_List (before ++ after)))).
Proof.
  intros H. unfold DefineAggregate, DefineAggregate_call.
  apply snd_bind_l.
  do 4 (apply snd_bind_r; intros ?).
  cbn [cells_of]. rewrite !snd_bind_ret.
  apply snd_bind_l. now apply scan_parameters_skip.
Qed.

End Command.

Lemma argument_types_filled_witness :
  exists w' a,
    @DefineAggregate_call sample_env ["myset"] sample_ordered_args false
      sample_parameters = (w', Ok a)
    /\ @AggregateCreate sample_env a = inl 16384
    /\ types_filled sample_ordered_args false a.
Proof.
  apply (@argument_types_filled sample_env ["myset"] sample_ordered_args
           false sample_parameters [] 16384).
  vm_compute. reflexivity.
Defined.

(** The sample ordered-set command, run: the array holds the three
    argument types and both variadic types are the array type. *)
Lemma sample_ordered_run :
  exists a,
    @DefineAggregate_call sample_env ["myset"] sample_ordered_args false
      sample_parameters = ([], Ok a)
    /\ cc_aggArgTypes a = Some [Some 23; Some 1007; Some 1007]
    /\ cc_numArgs a = 2 /\ cc_numOrderedArgs a = 1
    /\ cc_variadic_type a = 1007 /\ cc_ord_variadic_type a = 1007
    /\ cc_isOrderedSet a = true.
Proof. eexists. vm_compute. repeat split. Qed.

Lemma variadic_types_are_checked_witness :
  exists w' a,
    @DefineAggregate_call sample_env ["myset"] sample_ordered_args false
      sample_parameters = (w', Ok a)
    /\ @AggregateCreate sample_env a = inl 16384
    /\ variadic_types_checked a.
Proof.
  apply (@variadic_types_are_checked sample_env ["myset"]
           sample_ordered_args false sample_parameters [] 16384).
  vm_compute. reflexivity.
Defined.

Lemma plain_aggregate_requirements_witness :
  exists w' a,
    @DefineAggregate_call sample_env ["myagg"] sample_args false
      sample_parameters = (w', Ok a)
    /\ @AggregateCreate sample_env a = inl 16384
    /\ plain_requirements a.
Proof.
  apply (@plain_aggregate_requirements sample_env ["myagg"] sample_args
           false sample_parameters [] 16384).
  vm_compute. reflexivity.
Defined.

Lemma unrecognized_attribute_only_warns_witness :
  snd (@DefineAggregate sample_env ["myagg"] sample_args false
         (Some (T_List ([Some (T_DefElem (("sfunc", 0) : @DefElem sample_env))]
                        ++ Some (T_DefElem (("colour", 0) : @DefElem sample_env))
                        :: [Some (T_DefElem (("stype", 23) : @DefElem sample_env))]))))
  = snd (@DefineAggregate sample_env ["myagg"] sample_args false
           (Some (T_List ([Some (T_DefElem (("sfunc", 0) : @DefElem sample_env))]
                          ++ [Some (T_DefElem (("stype", 23) : @DefElem sample_env))])))).
Proof.
  apply (@unrecognized_attribute_only_warns sample_env).
  intros key Hin. cbn in Hin.
  repeat (destruct Hin as [<-|Hin]; [vm_compute; reflexivity|]).
  contradiction.
Defined.
